(** * perceptual_dedup: average hash, Hamming distance and the duplicate scan

    A shallow embedding of [perceptual_dedup.py].  The script computes an
    average hash (a list of 0/1 integers) for every image of an extracted
    archive and keeps an image only when its hash is further than
    [HASH_DIFF_THRESHOLD] bits away from every hash kept so far.

    Conventions of the embedding:
    - Python integers are [Z]; a hash is a [list Z], exactly as
      [average_hash] builds it;
    - Python's [sum] is a left fold of [+] starting from 0;
    - [True]/[False] used as integers are 1/0 ([Z.b2z]);
    - an operation that may raise returns a [result]: [Ok v], or [Raise e]
      for the exception [e];
    - the float produced by [/] is a rational obtained from the exact quotient
      by a rounding function, see [Float64]. *)

From Stdlib Require Import Ascii String List ZArith QArith Qround Lia Bool.
Import ListNotations.

Local Open Scope Z_scope.

(** ** Python built-ins used by the script *)

(** [sum(xs)]: left fold starting at 0. *)
Definition py_sum (xs : list Z) : Z := fold_left Z.add xs 0.

(** [len(xs)] as a Python integer. *)
Definition len {A : Type} (xs : list A) : Z := Z.of_nat (length xs).

(** [zip(xs, ys)] stops at the end of the shorter argument. *)
Definition zip {A B : Type} (xs : list A) (ys : list B) : list (A * B) :=
  combine xs ys.

(** ** Constants of the script *)

Definition HASH_SIZE : nat := 8.
Definition HASH_DIFF_THRESHOLD : Z := 5.
Definition MAX_IMAGE_SIZE : Z := 50 * 1024 * 1024.

(** ** [hamming_distance] *)

(** A hash as [average_hash] returns it: a list of bits. *)
Definition fingerprint : Type := list Z.

(** [return sum(el1 != el2 for el1, el2 in zip(hash1, hash2))] *)
Definition hamming_distance (hash1 hash2 : fingerprint) : Z :=
  py_sum (map (fun '(el1, el2) => Z.b2z (negb (el1 =? el2))) (zip hash1 hash2)).

(** The contract the specification gives for the distance, in its words:
    defined only when both lengths agree, a length-mismatch error otherwise;
    the value is the number of positions at which the two differ. *)
Definition differing_positions (a b : fingerprint) : list nat :=
  filter (fun i => negb (nth i a 0 =? nth i b 0)) (seq 0 (length a)).

Definition spec_distance (a b : fingerprint) : option Z :=
  if (length a =? length b)%nat
  then Some (Z.of_nat (length (differing_positions a b)))
  else None.

(** ** Exceptions *)

(** The exceptions the script distinguishes: its first handler catches
    [(IOError, SyntaxError, ValueError)] ([IOError] is [OSError]), its second
    every other [Exception]. *)
Inductive exn : Type :=
| OSError
| SyntaxError
| ValueError
| ZeroDivisionError
| OtherException.

Inductive result (A : Type) : Type :=
| Ok (a : A)
| Raise (e : exn).

Arguments Ok {A} a.
Arguments Raise {A} e.

(** ** Floats *)

(** [x / y] on Python integers is true division: the float nearest to the
    exact quotient.  A float is modelled by the rational it denotes and the
    rounding by a function [fl] of which only two properties of
    round-to-nearest binary64 are used: it is monotone, and it leaves alone
    every multiple [k / 2^44] with [0 <= k < 2^53] (53 significant bits).
    Comparing an integer with a float compares the exact values. *)
Class Float64 : Type := {
  fl : Q -> Q;
  fl_monotone : forall x y : Q, (x <= y)%Q -> (fl x <= fl y)%Q;
  fl_exact : forall k : Z,
      0 <= k < 2 ^ 53 -> (fl (k # 2 ^ 44) == k # 2 ^ 44)%Q
}.

(** [a / b], raising [ZeroDivisionError] when [b] is 0. *)
Definition true_div `{Float64} (a b : Z) : result Q :=
  if b =? 0 then Raise ZeroDivisionError
  else Ok (fl (inject_Z a / inject_Z b)).

(** ** Pillow *)

(** What the script uses of a decoded image:
    [list(image.convert("L").resize((n, n), Resampling.LANCZOS).getdata())].
    The conversion or the resize may raise (an image mode that has no
    conversion to "L", a side that is not positive); when they return, the
    result is the [n * n] intensities of the grayscale resample in row-major
    order, each an 8-bit value. *)
Class Pillow : Type := {
  Image : Type;
  gray_pixels : Image -> nat -> result (list Z);
  gray_pixels_length :
    forall (image : Image) (n : nat) (pixels : list Z),
      gray_pixels image n = Ok pixels -> length pixels = (n * n)%nat;
  gray_pixels_range :
    forall (image : Image) (n : nat) (pixels : list Z) (p : Z),
      gray_pixels image n = Ok pixels -> In p pixels -> 0 <= p <= 255
}.

(** ** [average_hash] *)

(** Lines 31-34, on the pixel list:
<<
    avg = sum(pixels) / len(pixels)
    bits = [1 if pixel >= avg else 0 for pixel in pixels]
    return bits
>> *)
Definition hash_bits `{Float64} (pixels : list Z) : result fingerprint :=
  match true_div (py_sum pixels) (len pixels) with
  | Raise e => Raise e
  | Ok avg =>
      Ok (map (fun pixel => if Qle_bool avg (inject_Z pixel) then 1 else 0)
              pixels)
  end.

(** Lines 29-30 followed by [hash_bits]:
<<
    image = image.convert("L").resize((hash_size, hash_size), Resampling.LANCZOS)
    pixels = list(image.getdata())
>> *)
Definition average_hash `{Float64} `{Pillow}
    (image : Image) (hash_size : nat) : result fingerprint :=
  match gray_pixels image hash_size with
  | Raise e => Raise e
  | Ok pixels => hash_bits pixels
  end.

(** The mean in the specification's words: the exact arithmetic mean of the
    intensities, and the bit it asks for at position [i]. *)
Definition exact_mean (pixels : list Z) : Q :=
  (inject_Z (py_sum pixels) / inject_Z (len pixels))%Q.

Definition spec_bit (pixels : list Z) (i : nat) : Z :=
  if Qle_bool (exact_mean pixels) (inject_Z (nth i pixels 0)) then 1 else 0.

(** The mean integer division would give, for comparison. *)
Definition truncated_mean (pixels : list Z) : Q :=
  inject_Z (py_sum pixels / len pixels).

(** ** The processing loop *)

(** The three lists the loop fills. [unique_hashes] and [unique_filepaths]
    are appended to together: position [i] of one belongs to position [i] of
    the other. *)
Record State : Type := {
  unique_hashes : list fingerprint;
  unique_filepaths : list string;
  duplicates : list string
}.

Definition initial : State :=
  {| unique_hashes := []; unique_filepaths := []; duplicates := [] |}.

(** The accepted set of the specification: the kept hashes, each with the path
    of the image it came from. *)
Definition AcceptedSet (st : State) : list (fingerprint * string) :=
  combine (unique_hashes st) (unique_filepaths st).

(** One entry of [image_files] with what the environment answers for it:
    [os.path.getsize(img_path)] and the image obtained by
    [Image.open(img_path)], [img.verify()] and [img.load()]. *)
Record image_file `{Pillow} : Type := {
  img_path : string;
  getsize : result Z;
  opened : result Image
}.

(** Why an item was passed over: the three [continue] statements. *)
Inductive skip_reason : Type :=
| FileTooLarge
| InvalidOrCorrupted (e : exn)
| ProcessingError (e : exn).

(** The outcome of one iteration. The script does not build this value: an
    iteration prints and continues ([Skipped]), appends the path to
    [duplicates] ([Duplicate_of]) or appends hash and path to the unique lists
    ([Unique]).  The representative of a duplicate is the path kept with the
    hash at which the inner loop breaks. *)
Inductive Verdict : Type :=
| Unique
| Duplicate_of (representative : string)
| Skipped (reason : skip_reason).

(** Which handler catches an exception raised inside the [try]. *)
Definition handler (e : exn) : skip_reason :=
  match e with
  | OSError | SyntaxError | ValueError => InvalidOrCorrupted e
  | ZeroDivisionError | OtherException => ProcessingError e
  end.

(** Lines 122-139: the [try] block, giving [img_hash] or the reason for the
    [continue]. *)
Definition try_hash `{Float64} `{Pillow}
    (max_image_size : Z) (f : image_file) : skip_reason + fingerprint :=
  match getsize f with
  | Raise e => inl (handler e)
  | Ok size =>
      if size >? max_image_size then inl FileTooLarge
      else
        match opened f with
        | Raise e => inl (handler e)
        | Ok img =>
            match average_hash img HASH_SIZE with
            | Raise e => inl (handler e)
            | Ok img_hash => inr img_hash
            end
        end
  end.

(** Lines 142-146: the inner loop.  It returns [is_dup] and the number of
    hashes it compared [img_hash] with.
<<
    is_dup = False
    for uhash in unique_hashes:
        if hamming_distance(img_hash, uhash) <= HASH_DIFF_THRESHOLD:
            is_dup = True
            break
>> *)
Fixpoint scan (threshold : Z) (img_hash : fingerprint)
    (hashes : list fingerprint) : bool * nat :=
  match hashes with
  | [] => (false, 0%nat)
  | uhash :: rest =>
      if hamming_distance img_hash uhash <=? threshold then (true, 1%nat)
      else let (is_dup, examined) := scan threshold img_hash rest in
           (is_dup, S examined)
  end.

(** Lines 141-151: the classification of a hashed image. *)
Definition classify (threshold : Z) (st : State)
    (path : string) (img_hash : fingerprint) : State * Verdict :=
  let (is_dup, examined) := scan threshold img_hash (unique_hashes st) in
  if is_dup
  then ({| unique_hashes := unique_hashes st;
           unique_filepaths := unique_filepaths st;
           duplicates := duplicates st ++ [path] |},
        Duplicate_of (nth (examined - 1) (unique_filepaths st) path))
  else ({| unique_hashes := unique_hashes st ++ [img_hash];
           unique_filepaths := unique_filepaths st ++ [path];
           duplicates := duplicates st |},
        Unique).

(** One iteration of [for img_path in image_files]. *)
Definition process_image `{Float64} `{Pillow}
    (threshold max_image_size : Z) (st : State) (f : image_file)
  : State * Verdict :=
  match try_hash max_image_size f with
  | inl reason => (st, Skipped reason)
  | inr img_hash => classify threshold st (img_path f) img_hash
  end.

(** The loop over [image_files] from a given state: the verdicts in order and
    the final state. *)
Fixpoint run `{Float64} `{Pillow}
    (threshold max_image_size : Z) (st : State) (files : list image_file)
  : list Verdict * State :=
  match files with
  | [] => ([], st)
  | f :: rest =>
      let (st1, v) := process_image threshold max_image_size st f in
      let (vs, st2) := run threshold max_image_size st1 rest in
      (v :: vs, st2)
  end.

(** The script's loop: empty lists at the start (lines 117-119) and the
    constant threshold. *)
Definition dedup `{Float64} `{Pillow}
    (max_image_size : Z) (image_files : list image_file)
  : list Verdict * State :=
  run HASH_DIFF_THRESHOLD max_image_size initial image_files.

Definition verdicts `{Float64} `{Pillow}
    (max_image_size : Z) (image_files : list image_file) : list Verdict :=
  fst (dedup max_image_size image_files).

Definition accepted `{Float64} `{Pillow}
    (max_image_size : Z) (image_files : list image_file)
  : list (fingerprint * string) :=
  AcceptedSet (snd (dedup max_image_size image_files)).

(** ** The loop as a relation

    The same loop, one rule per path through its body: what one iteration may
    answer and leave behind, without saying how it is computed. *)

(** The inner loop over the kept hashes: [scans t h hashes is_dup k] when it
    ends with [is_dup] after [k] comparisons. *)
Inductive scans (threshold : Z) (img_hash : fingerprint)
  : list fingerprint -> bool -> nat -> Prop :=
| scans_exhausted :
    scans threshold img_hash [] false 0%nat
| scans_break (uhash : fingerprint) (rest : list fingerprint) :
    hamming_distance img_hash uhash <= threshold ->
    scans threshold img_hash (uhash :: rest) true 1%nat
| scans_next (uhash : fingerprint) (rest : list fingerprint)
    (is_dup : bool) (examined : nat) :
    threshold < hamming_distance img_hash uhash ->
    scans threshold img_hash rest is_dup examined ->
    scans threshold img_hash (uhash :: rest) is_dup (S examined).

Inductive iteration `{Float64} `{Pillow} (threshold max_image_size : Z)
    (st : State) (f : image_file) : Verdict -> State -> Prop :=
| iteration_getsize_raises (e : exn) :
    getsize f = Raise e ->
    iteration threshold max_image_size st f (Skipped (handler e)) st
| iteration_too_large (size : Z) :
    getsize f = Ok size ->
    max_image_size < size ->
    iteration threshold max_image_size st f (Skipped FileTooLarge) st
| iteration_open_raises (size : Z) (e : exn) :
    getsize f = Ok size ->
    size <= max_image_size ->
    opened f = Raise e ->
    iteration threshold max_image_size st f (Skipped (handler e)) st
| iteration_hash_raises (size : Z) (img : Image) (e : exn) :
    getsize f = Ok size ->
    size <= max_image_size ->
    opened f = Ok img ->
    average_hash img HASH_SIZE = Raise e ->
    iteration threshold max_image_size st f (Skipped (handler e)) st
| iteration_duplicate (size : Z) (img : Image) (img_hash : fingerprint)
    (examined : nat) :
    getsize f = Ok size ->
    size <= max_image_size ->
    opened f = Ok img ->
    average_hash img HASH_SIZE = Ok img_hash ->
    scans threshold img_hash (unique_hashes st) true examined ->
    iteration threshold max_image_size st f
      (Duplicate_of (nth (examined - 1) (unique_filepaths st) (img_path f)))
      {| unique_hashes := unique_hashes st;
         unique_filepaths := unique_filepaths st;
         duplicates := duplicates st ++ [img_path f] |}
| iteration_unique (size : Z) (img : Image) (img_hash : fingerprint)
    (examined : nat) :
    getsize f = Ok size ->
    size <= max_image_size ->
    opened f = Ok img ->
    average_hash img HASH_SIZE = Ok img_hash ->
    scans threshold img_hash (unique_hashes st) false examined ->
    iteration threshold max_image_size st f
      Unique
      {| unique_hashes := unique_hashes st ++ [img_hash];
         unique_filepaths := unique_filepaths st ++ [img_path f];
         duplicates := duplicates st |}.

Inductive loop `{Float64} `{Pillow} (threshold max_image_size : Z)
  : State -> list image_file -> list Verdict -> State -> Prop :=
| loop_done (st : State) :
    loop threshold max_image_size st [] [] st
| loop_step (st st1 st2 : State) (f : image_file) (rest : list image_file)
    (v : Verdict) (vs : list Verdict) :
    iteration threshold max_image_size st f v st1 ->
    loop threshold max_image_size st1 rest vs st2 ->
    loop threshold max_image_size st (f :: rest) (v :: vs) st2.

(** ** Invariants of the state *)

(** [far t h m]: the kept hash [m] is not within the threshold of [h]. *)
Definition far (threshold : Z) (img_hash uhash : fingerprint) : Prop :=
  threshold < hamming_distance img_hash uhash.

(** The two unique lists run in step. *)
Definition aligned (st : State) : Prop :=
  length (unique_hashes st) = length (unique_filepaths st).

(** Any two kept hashes, taken at different positions, are further apart
    than the threshold. *)
Definition pairwise_far (threshold : Z) (hashes : list fingerprint) : Prop :=
  forall (i j : nat) (a b : fingerprint),
    i <> j ->
    nth_error hashes i = Some a ->
    nth_error hashes j = Some b ->
    threshold < hamming_distance a b.

(** What every iteration keeps: the unique lists in step and the kept hashes
    pairwise far apart. *)
Definition well_kept (threshold : Z) (st : State) : Prop :=
  aligned st /\ pairwise_far threshold (unique_hashes st).

(** ** The classification loop on images already hashed *)

(** Lines 141-151 run over a sequence of images that have their hash: the
    part of [run] that comes after the [try] block. *)
Fixpoint classify_all (threshold : Z) (st : State)
    (items : list (string * fingerprint)) : list Verdict * State :=
  match items with
  | [] => ([], st)
  | (path, img_hash) :: rest =>
      let (st1, v) := classify threshold st path img_hash in
      let (vs, st2) := classify_all threshold st1 rest in
      (v :: vs, st2)
  end.

(** The file [f] has the path [path], passes the size check of line 124 and
    is opened, verified and loaded (lines 128-131) as [image]. *)
Definition delivered `{Pillow} (max_image_size : Z) (f : image_file)
    (path : string) (image : Image) : Prop :=
  img_path f = path
  /\ (exists size, getsize f = Ok size /\ size <= max_image_size)
  /\ opened f = Ok image.

(** ** Stand-ins for the environment

    Two concrete implementations of the interfaces above, used to run the
    model on examples. *)

(** A rounding that really rounds: down to the next multiple of [2^-44]. *)
Definition round_down (q : Q) : Q := Qfloor (q * inject_Z (2 ^ 44)) # 2 ^ 44.

(** An image given by its intensities: resampling to [n * n] takes the first
    [n * n] of them, clamped to 8 bits, padding with black; like Pillow it
    refuses the side 0. *)
Definition clamp8 (p : Z) : Z := Z.max 0 (Z.min p 255).

Definition raster_pixels (image : list Z) (n : nat) : result (list Z) :=
  if (n =? 0)%nat then Raise ValueError
  else Ok (firstn (n * n) (map clamp8 image ++ repeat 0 (n * n))).

(** A state with two kept images, eight bits each, and a hash one bit away
    from the second. *)
Definition two_kept : State :=
  {| unique_hashes := [[0; 0; 0; 0; 0; 0; 0; 0]; [1; 1; 1; 1; 1; 1; 1; 1]];
     unique_filepaths := ["a.png"%string; "b.png"%string];
     duplicates := [] |}.

Definition near_second : fingerprint := [1; 1; 1; 1; 1; 1; 1; 0].

(** An image file the [try] block gets through, whose resample is flat. *)
Definition flat_file `{Pillow} (max_image_size : Z) (f : image_file) : Prop :=
  exists (size : Z) (img : Image) (p : Z),
    getsize f = Ok size
    /\ size <= max_image_size
    /\ opened f = Ok img
    /\ gray_pixels img HASH_SIZE = Ok (repeat p (HASH_SIZE * HASH_SIZE)).

(** The ways an item fails: its size cannot be read, it is too large, it
    cannot be opened, verified and loaded, or it cannot be hashed. *)
Definition fails `{Float64} `{Pillow}
    (max_image_size : Z) (f : image_file) : Prop :=
  (exists e, getsize f = Raise e)
  \/ (exists size, getsize f = Ok size /\ max_image_size < size)
  \/ (exists e, opened f = Raise e)
  \/ (exists img e, opened f = Ok img /\ average_hash img HASH_SIZE = Raise e).

(** ** Reading a run's outcome *)

Definition is_unique (v : Verdict) : bool :=
  match v with Unique => true | _ => false end.

Definition is_duplicate (v : Verdict) : bool :=
  match v with Duplicate_of _ => true | _ => false end.

Definition is_skipped (v : Verdict) : bool :=
  match v with Skipped _ => true | _ => false end.

(** The paths of the files whose verdict satisfies [keep], in input order. *)
Definition paths_where `{Pillow} (keep : Verdict -> bool)
    (files : list image_file) (vs : list Verdict) : list string :=
  map (fun fv => img_path (fst fv))
      (filter (fun fv => keep (snd fv)) (combine files vs)).

(** The files whose verdict is [Unique], in input order: what the script
    copies to the output. *)
Definition kept_files `{Pillow}
    (files : list image_file) (vs : list Verdict) : list image_file :=
  map fst (filter (fun fv => is_unique (snd fv)) (combine files vs)).

(** The hashes and paths of the files whose verdict is [Unique], in input
    order. *)
Definition kept_entries `{Float64} `{Pillow} (max_image_size : Z)
    (files : list image_file) (vs : list Verdict)
  : list (fingerprint * string) :=
  flat_map (fun f => match try_hash max_image_size f with
                     | inr img_hash => [(img_hash, img_path f)]
                     | inl _ => []
                     end)
           (kept_files files vs).

(** Two states with the same unique lists (the duplicates may differ). *)
Definition same_kept (st st' : State) : Prop :=
  unique_hashes st = unique_hashes st'
  /\ unique_filepaths st = unique_filepaths st'.

(** Hashes of which each is far from [seen] and from those before it. *)
Fixpoint all_far (threshold : Z) (seen hashes : list fingerprint) : Prop :=
  match hashes with
  | [] => True
  | h :: rest =>
      Forall (far threshold h) seen /\ all_far threshold (seen ++ [h]) rest
  end.

(** ** Checking the archive (lines 66-92) *)

(** What can be raised around the archive: [zipfile.BadZipFile], which the
    inner [try] catches, or another [Exception]. *)
Inductive zip_exn : Type :=
| BadZipFile
| OtherError (e : exn).

Inductive attempt (A : Type) : Type :=
| Got (a : A)
| Threw (e : zip_exn).

Arguments Got {A} a.
Arguments Threw {A} e.

(** An opened archive: what [zip_ref.testzip()] answers (the name of the
    first bad member, if any) and the [file_size] of each entry of
    [zip_ref.filelist]. *)
Record zip_ref : Type := {
  testzip : attempt (option string);
  file_sizes : list Z
}.

(** What the environment answers about [args.input_zip]. *)
Record input_zip : Type := {
  path_exists : bool;
  zip_getsize : attempt Z;
  ZipFile : attempt zip_ref
}.

(** The five messages that are followed by [sys.exit(1)]. *)
Inductive rejection : Type :=
| NotFound
| ArchiveTooLarge
| Corrupted
| PossibleZipBomb
| NotAZipArchive.

(** How the checks end: the script goes on, it prints a message and calls
    [sys.exit(1)], or an exception leaves the checks. *)
Inductive validation : Type :=
| Passed
| Rejected (why : rejection)
| Failed (e : zip_exn).

(** The body of [with zipfile.ZipFile(...) as zip_ref]. *)
Definition check_members (max_zip_size : Z) (z : zip_ref) : validation :=
  match testzip z with
  | Threw e => Failed e
  | Got (Some _) => Rejected Corrupted
  | Got None =>
      let total_size := py_sum (file_sizes z) in
      if total_size >? max_zip_size * 10 then Rejected PossibleZipBomb
      else Passed
  end.

(** [except zipfile.BadZipFile]: it catches that exception only; the
    [SystemExit] of a rejection and other exceptions pass. *)
Definition except_BadZipFile (v : validation) : validation :=
  match v with
  | Failed BadZipFile => Rejected NotAZipArchive
  | _ => v
  end.

Definition validate (max_zip_size : Z) (a : input_zip) : validation :=
  if negb (path_exists a) then Rejected NotFound
  else
    match zip_getsize a with
    | Threw e => Failed e
    | Got zip_size =>
        if zip_size >? max_zip_size then Rejected ArchiveTooLarge
        else
          except_BadZipFile
            match ZipFile a with
            | Threw e => Failed e
            | Got z => check_members max_zip_size z
            end
    end.

(** The same archive with another size on disk. *)
Definition stored_in (zip_size : Z) (a : input_zip) : input_zip :=
  {| path_exists := path_exists a;
     zip_getsize := Got zip_size;
     ZipFile := ZipFile a |}.

(** ** Choosing the image files (lines 107-113) *)

(** File names are strings of 8-bit characters. *)

Definition is_dot (c : Ascii.ascii) : bool := Ascii.eqb c "."%char.

Fixpoint has_dot (p : string) : bool :=
  match p with
  | EmptyString => false
  | String c rest => is_dot c || has_dot rest
  end.

Fixpoint only_dots (p : string) : bool :=
  match p with
  | EmptyString => true
  | String c rest => is_dot c && only_dots rest
  end.

(** [p[:i]] and [p[i:]] for [i = p.rfind(".")], when there is a dot. *)
Fixpoint split_last_dot (p : string) : option (string * string) :=
  match p with
  | EmptyString => None
  | String c rest =>
      match split_last_dot rest with
      | Some (root, ext) => Some (String c root, ext)
      | None => if is_dot c then Some (EmptyString, p) else None
      end
  end.

(** [os.path.splitext] on a name without directory separator, as [os.walk]
    gives them: the name is cut at its last dot unless only dots come before
    that dot. *)
Definition splitext (p : string) : string * string :=
  match split_last_dot p with
  | Some (root, ext) =>
      if only_dots root then (p, EmptyString) else (root, ext)
  | None => (p, EmptyString)
  end.

(** [str.lower] on 8-bit characters: A-Z and the capital letters of
    Latin-1. *)
Definition lower_char (c : Ascii.ascii) : Ascii.ascii :=
  let n := Ascii.nat_of_ascii c in
  if ((65 <=? n) && (n <=? 90)
      || (192 <=? n) && (n <=? 222) && negb (n =? 215))%nat
  then Ascii.ascii_of_nat (n + 32)
  else c.

Fixpoint lower (p : string) : string :=
  match p with
  | EmptyString => EmptyString
  | String c rest => String (lower_char c) (lower rest)
  end.

Definition VALID_EXTENSIONS : list string :=
  [".png"; ".jpg"; ".jpeg"; ".bmp"; ".gif"; ".tiff"]%string.

(** Lines 111-112:
<<
    ext = os.path.splitext(file)[1].lower()
    if ext in VALID_EXTENSIONS:
>> *)
Definition has_valid_extension (file : string) : bool :=
  let ext := lower (snd (splitext file)) in
  existsb (String.eqb ext) VALID_EXTENSIONS.

(** ** How the script ends (lines 47-52, 63-65, 94-105, 156-185) *)

Definition MAX_ZIP_SIZE : Z := 1024 * 1024 * 1024.

(** [parser.parse_args()]: the two size limits, or the [SystemExit] argparse
    raises on a bad command line or after printing its help. *)
Inductive parse_args : Type :=
| Parsed (max_zip_size max_image_size : Z)
| ArgparseExit (code : Z).

(** The steps of the [try] body that may raise, besides the checks of the
    archive: creating the output directory, extracting, copying the unique
    files, writing the output archive.  The loop over the images between
    extracting and copying raises nothing: its own [try] catches every
    [Exception]. *)
Record steps : Type := {
  makedirs_output : attempt unit;
  extractall : attempt unit;
  copy_unique : attempt unit;
  write_archive : attempt unit
}.

(** How the [try] body is left. *)
Inductive body_end : Type :=
| Finished
| SystemExit (code : Z)
| Exception (e : zip_exn).

Definition try_body (args : parse_args) (a : input_zip) (s : steps)
  : body_end :=
  match args with
  | ArgparseExit code => SystemExit code
  | Parsed max_zip_size _ =>
      match validate max_zip_size a with
      | Rejected _ => SystemExit 1
      | Failed e => Exception e
      | Passed =>
          match makedirs_output s with
          | Threw e => Exception e
          | Got _ =>
              match extractall s with
              | Threw e => Exception e
              | Got _ =>
                  match copy_unique s with
                  | Threw e => Exception e
                  | Got _ =>
                      match write_archive s with
                      | Threw e => Exception e
                      | Got _ => Finished
                      end
                  end
              end
          end
      end
  end.

(** The status the process exits with and whether the two temporary
    directories, created before the [try], are still there.  [shutil.rmtree]
    is taken to succeed.  A body that finishes has removed them (lines
    175-176); [except Exception] removes them and calls [sys.exit(1)];
    [SystemExit] is no [Exception] and passes the handler. *)
Record ending : Type := {
  exit_status : Z;
  temp_dirs_left : bool
}.

Definition script (args : parse_args) (a : input_zip) (s : steps) : ending :=
  match try_body args a s with
  | Finished => {| exit_status := 0; temp_dirs_left := false |}
  | SystemExit code => {| exit_status := code; temp_dirs_left := true |}
  | Exception _ => {| exit_status := 1; temp_dirs_left := false |}
  end.

(** An archive of 1000 bytes on disk whose two members unpack to five
    gigabytes. *)
Definition dense_archive : input_zip :=
  {| path_exists := true;
     zip_getsize := Got 1000;
     ZipFile := Got {| testzip := Got None;
                       file_sizes := [2500000000; 2500000000] |} |}.

(** ** The stand-ins satisfy their interfaces *)

Lemma round_down_monotone (x y : Q) :
  (x <= y)%Q -> (round_down x <= round_down y)%Q.
Proof.
  intro Hxy. unfold round_down.
  assert (Hfloor : Qfloor (x * inject_Z (2 ^ 44))
                   <= Qfloor (y * inject_Z (2 ^ 44))).
  { apply Qfloor_resp_le. apply Qmult_le_compat_r; [exact Hxy|].
    unfold Qle; simpl; lia. }
  revert Hfloor. generalize (Qfloor (x * inject_Z (2 ^ 44))).
  generalize (Qfloor (y * inject_Z (2 ^ 44))). intros v u Huv.
  unfold Qle; cbn [Qnum Qden]. nia.
Qed.

Lemma round_down_exact (k : Z) :
  0 <= k < 2 ^ 53 -> (round_down (k # 2 ^ 44) == k # 2 ^ 44)%Q.
Proof.
  intros _. unfold round_down.
  assert (E : ((k # 2 ^ 44) * inject_Z (2 ^ 44) == inject_Z k)%Q).
  { unfold Qeq, Qmult, inject_Z; simpl. lia. }
  rewrite (Qfloor_comp _ _ E), Qfloor_Z. reflexivity.
Qed.

Definition grid_float : Float64 :=
  {| fl := round_down;
     fl_monotone := round_down_monotone;
     fl_exact := round_down_exact |}.

Lemma in_firstn {A : Type} (x : A) (n : nat) (l : list A) :
  In x (firstn n l) -> In x l.
Proof.
  revert l; induction n as [|n IH]; intros [|y l] Hin; simpl in *; try tauto.
  destruct Hin as [->|Hin]; [now left | right; now apply IH].
Qed.

Lemma raster_pixels_length (image : list Z) (n : nat) (pixels : list Z) :
  raster_pixels image n = Ok pixels -> length pixels = (n * n)%nat.
Proof.
  unfold raster_pixels. destruct (n =? 0)%nat; [discriminate|].
  intro E.
  assert (pixels = firstn (n * n) (map clamp8 image ++ repeat 0 (n * n)))
    by congruence.
  subst pixels. rewrite length_firstn, length_app, repeat_length. lia.
Qed.

Lemma raster_pixels_range (image : list Z) (n : nat) (pixels : list Z)
    (p : Z) :
  raster_pixels image n = Ok pixels -> In p pixels -> 0 <= p <= 255.
Proof.
  unfold raster_pixels. destruct (n =? 0)%nat; [discriminate|].
  intro E.
  assert (pixels = firstn (n * n) (map clamp8 image ++ repeat 0 (n * n)))
    by congruence.
  subst pixels. intro Hin. apply in_firstn in Hin.
  apply in_app_or in Hin. destruct Hin as [Hin|Hin].
  - apply in_map_iff in Hin. destruct Hin as [q [<- _]]. unfold clamp8. lia.
  - apply repeat_spec in Hin. lia.
Qed.

Definition raster : Pillow :=
  {| Image := list Z;
     gray_pixels := raster_pixels;
     gray_pixels_length := raster_pixels_length;
     gray_pixels_range := raster_pixels_range |}.

(** ** Example files *)

(** Files over the [raster] stand-in: one that decodes, one that does not. *)
Definition raster_file (path : string) (size : Z) (pixels : list Z)
  : @image_file raster :=
  @Build_image_file raster path (Ok size) (Ok pixels).

Definition corrupt_file (path : string) (size : Z) : @image_file raster :=
  @Build_image_file raster path (Ok size) (Raise OSError).

(** Flat 100 x 100 squares (blue and red have luminance 29 and 76), as
    files for which the environment delivers the decoded image. *)
Definition blue_square : @image_file raster :=
  raster_file "img1.png" 300 (repeat 29 (100 * 100)).

Definition red_square : @image_file raster :=
  raster_file "img3.png" 300 (repeat 76 (100 * 100)).

(** The blue square saved again as JPEG, in the same environment: the
    decoded image is flat again. *)
Definition resaved_decoded : @image_file raster :=
  raster_file "img2.jpg" 900 (repeat 29 (100 * 100)).

(** A file on which [img.load()] raises after [img.verify()] (lines
    130-131), as Pillow answers for PNG and JPEG files: [verify] gives up the
    file the image is read from.  The exception is none of those of line
    134, so line 137 catches it. *)
Definition load_fails (path : string) (size : Z) : @image_file raster :=
  @Build_image_file raster path (Ok size) (Raise OtherException).

(** Three 8 x 8 images whose hashes are all ones ([chain_a]), ones but for
    the first four bits ([chain_b]) and ones but for the first eight
    ([chain_c]). *)
Definition chain_a : @image_file raster :=
  raster_file "A.png" 64 (repeat 100 64).

Definition chain_b : @image_file raster :=
  raster_file "B.png" 64 (repeat 0 4 ++ repeat 200 60).

Definition chain_c : @image_file raster :=
  raster_file "C.png" 64 (repeat 0 8 ++ repeat 200 56).

(** ** Facts about [py_sum] and [hamming_distance] *)

Lemma fold_add_acc (xs : list Z) (a : Z) :
  fold_left Z.add xs a = a + fold_left Z.add xs 0.
Proof.
  revert a; induction xs as [|x xs IH]; intro a; simpl.
  - lia.
  - rewrite (IH (a + x)), (IH x). lia.
Qed.

Lemma py_sum_nil : py_sum [] = 0.
Proof. reflexivity. Qed.

Lemma py_sum_cons (x : Z) (xs : list Z) : py_sum (x :: xs) = x + py_sum xs.
Proof. unfold py_sum; simpl. apply fold_add_acc. Qed.

Lemma py_sum_repeat (x : Z) (n : nat) : py_sum (repeat x n) = Z.of_nat n * x.
Proof.
  induction n as [|n IH].
  - reflexivity.
  - cbn [repeat]. rewrite py_sum_cons, IH. lia.
Qed.

Lemma hamming_nil_l (b : fingerprint) : hamming_distance [] b = 0.
Proof. reflexivity. Qed.

Lemma hamming_nil_r (a : fingerprint) : hamming_distance a [] = 0.
Proof. destruct a; reflexivity. Qed.

Lemma hamming_cons (x y : Z) (a b : fingerprint) :
  hamming_distance (x :: a) (y :: b)
  = Z.b2z (negb (x =? y)) + hamming_distance a b.
Proof. unfold hamming_distance, zip; simpl. apply py_sum_cons. Qed.

(** Induction on two hashes at once, following [zip]. *)
Lemma zip_ind (P : fingerprint -> fingerprint -> Prop) :
  (forall b, P [] b) ->
  (forall a, P a []) ->
  (forall x y a b, P a b -> P (x :: a) (y :: b)) ->
  forall a b, P a b.
Proof.
  intros Hl Hr Hc a; induction a as [|x a IH]; intro b.
  - apply Hl.
  - destruct b as [|y b]; [apply Hr | apply Hc, IH].
Qed.

Ltac zip_induction a b :=
  revert a b;
  match goal with |- forall x y, @?P x y => apply (zip_ind P) end.

Lemma hamming_sym (a b : fingerprint) :
  hamming_distance a b = hamming_distance b a.
Proof.
  zip_induction a b; intros.
  - now rewrite hamming_nil_l, hamming_nil_r.
  - now rewrite hamming_nil_l, hamming_nil_r.
  - rewrite !hamming_cons, H, (Z.eqb_sym x y). reflexivity.
Qed.

Lemma hamming_nonneg (a b : fingerprint) : 0 <= hamming_distance a b.
Proof.
  zip_induction a b; intros.
  - rewrite hamming_nil_l; lia.
  - rewrite hamming_nil_r; lia.
  - rewrite hamming_cons. destruct (x =? y); cbn [Z.b2z negb]; lia.
Qed.

Lemma hamming_le_len_l (a b : fingerprint) : hamming_distance a b <= len a.
Proof.
  zip_induction a b; intros; unfold len in *.
  - rewrite hamming_nil_l; simpl; lia.
  - rewrite hamming_nil_r; lia.
  - rewrite hamming_cons. cbn [length]. destruct (x =? y); cbn [Z.b2z negb]; lia.
Qed.

Lemma hamming_refl (a : fingerprint) : hamming_distance a a = 0.
Proof.
  induction a as [|x a IH]; [reflexivity|].
  rewrite hamming_cons, IH, Z.eqb_refl. reflexivity.
Qed.

Lemma hamming_zero_eq (a b : fingerprint) :
  length a = length b -> hamming_distance a b = 0 -> a = b.
Proof.
  zip_induction a b.
  - intros b Hlen Hd. destruct b; [reflexivity | discriminate].
  - intros a Hlen Hd. destruct a; [reflexivity | discriminate].
  - intros x y a b IH Hlen Hd. rewrite hamming_cons in Hd.
    pose proof (hamming_nonneg a b) as Hpos.
    destruct (Z.eqb_spec x y) as [->|Hne]; cbn [Z.b2z negb] in Hd.
    + f_equal. apply IH; [now injection Hlen | lia].
    + lia.
Qed.

(** The indices at which [x :: a] and [y :: b] differ are 0 (when [x <> y])
    and the successors of those at which [a] and [b] differ. *)
Lemma filter_map_S (f : nat -> bool) (l : list nat) :
  filter f (map S l) = map S (filter (fun i => f (S i)) l).
Proof.
  induction l as [|i l IH]; [reflexivity|].
  cbn [map filter]. rewrite IH. destruct (f (S i)); reflexivity.
Qed.

Lemma differing_positions_cons (x y : Z) (a b : fingerprint) :
  differing_positions (x :: a) (y :: b)
  = (if negb (x =? y) then [0%nat] else [])
      ++ map S (differing_positions a b).
Proof.
  unfold differing_positions. cbn [length seq].
  rewrite <- seq_shift. cbn [filter]. rewrite filter_map_S.
  cbn [nth]. destruct (negb (x =? y)); reflexivity.
Qed.

Lemma hamming_counts (a b : fingerprint) :
  length a = length b ->
  hamming_distance a b = Z.of_nat (length (differing_positions a b)).
Proof.
  zip_induction a b.
  - intros b Hlen. destruct b; [reflexivity | discriminate].
  - intros a Hlen. destruct a; [reflexivity | discriminate].
  - intros x y a b IH Hlen.
    rewrite hamming_cons, differing_positions_cons, length_app, length_map.
    rewrite IH by (now injection Hlen).
    destruct (x =? y); cbn [Z.b2z negb length]; lia.
Qed.

(** On lists of different lengths the distance is that of the common prefix:
    [zip] drops the tail of the longer one. *)
Lemma hamming_truncates (a b : fingerprint) :
  let n := Nat.min (length a) (length b) in
  hamming_distance a b = hamming_distance (firstn n a) (firstn n b).
Proof.
  zip_induction a b; intros.
  - subst n; simpl. now rewrite !hamming_nil_l.
  - subst n. rewrite Nat.min_0_r; simpl. now rewrite !hamming_nil_r.
  - subst n; cbn [length Nat.min firstn]. rewrite !hamming_cons.
    f_equal. exact H.
Qed.

(** ** Facts about true division and the comparison with the mean *)

Lemma Qdiv_as_fraction (s n : Z) :
  0 < n -> (inject_Z s / inject_Z n == s # Z.to_pos n)%Q.
Proof.
  intro Hn. destruct n as [|n|n]; try lia.
  unfold Qdiv, Qinv, Qmult, Qeq, inject_Z; simpl. lia.
Qed.

Lemma fraction_le_int (s n p : Z) :
  0 < n -> (s # Z.to_pos n <= inject_Z p)%Q <-> s <= p * n.
Proof.
  intro Hn. unfold Qle, inject_Z; simpl. rewrite Z2Pos.id by lia. lia.
Qed.

Lemma int_as_dyadic (p : Z) : (inject_Z p == (p * 2 ^ 44) # 2 ^ 44)%Q.
Proof. unfold Qeq, inject_Z; simpl. lia. Qed.

Section Rounding.
Context `{Float64}.

Lemma fl_proper (x y : Q) : (x == y)%Q -> (fl x == fl y)%Q.
Proof.
  intro E. apply Qle_antisym; apply fl_monotone; rewrite E; apply Qle_refl.
Qed.

Lemma fl_int (p : Z) : 0 <= p <= 255 -> (fl (inject_Z p) == inject_Z p)%Q.
Proof.
  intro Hp. rewrite (fl_proper _ _ (int_as_dyadic p)).
  rewrite fl_exact by lia. symmetry. apply int_as_dyadic.
Qed.

(** Rounding the mean of at most [2^44] integers never moves it across an
    8-bit integer: comparing a pixel with the float [avg] is comparing it
    with the exact mean. *)
Lemma fl_keeps_order (s n p : Z) :
  0 < n <= 2 ^ 44 -> 0 <= p <= 255 ->
  (fl (inject_Z s / inject_Z n) <= inject_Z p)%Q
  <-> (inject_Z s / inject_Z n <= inject_Z p)%Q.
Proof.
  intros Hn Hp. split; intro Hle.
  - destruct (Qlt_le_dec (inject_Z p) (inject_Z s / inject_Z n)) as [Hlt|]; 
      [exfalso | assumption].
    assert (Hs : p * n + 1 <= s).
    { rewrite Qdiv_as_fraction in Hlt by lia.
      apply Qlt_not_le in Hlt. rewrite fraction_le_int in Hlt by lia. lia. }
    assert (Hstep : ((p * 2 ^ 44 + 1) # 2 ^ 44 <= inject_Z s / inject_Z n)%Q).
    { rewrite Qdiv_as_fraction by lia. unfold Qle; simpl.
      rewrite Z2Pos.id by lia. nia. }
    apply fl_monotone in Hstep. rewrite fl_exact in Hstep by lia.
    apply (Qle_trans _ _ _ Hstep) in Hle.
    unfold Qle, inject_Z in Hle; simpl in Hle. lia.
  - apply fl_monotone in Hle. rewrite fl_int in Hle by lia. exact Hle.
Qed.

End Rounding.

(** ** Facts about [hash_bits] and [average_hash] *)

Lemma Qle_bool_agree (x y z : Q) :
  ((x <= z)%Q <-> (y <= z)%Q) -> Qle_bool x z = Qle_bool y z.
Proof.
  intro E. apply Bool.eq_iff_eq_true. rewrite !Qle_bool_iff. exact E.
Qed.

Lemma len_pos {A : Type} (x : A) (xs : list A) : 0 < len (x :: xs).
Proof. unfold len; cbn [length]; lia. Qed.

Section Extractor.
Context `{Float64}.

Lemma hash_bits_nil : hash_bits [] = Raise ZeroDivisionError.
Proof. reflexivity. Qed.

Lemma hash_bits_cons (x : Z) (xs : list Z) :
  hash_bits (x :: xs)
  = Ok (map (fun pixel =>
               if Qle_bool (fl (exact_mean (x :: xs))) (inject_Z pixel)
               then 1 else 0)
            (x :: xs)).
Proof.
  unfold hash_bits, true_div, exact_mean.
  pose proof (len_pos x xs) as Hpos.
  destruct (Z.eqb_spec (len (x :: xs)) 0) as [E|_]; [lia | reflexivity].
Qed.

(** The bits [hash_bits] computes are those of the comparison with the exact
    mean. *)
Lemma hash_bits_exact (pixels : list Z) :
  pixels <> [] ->
  len pixels <= 2 ^ 44 ->
  (forall p, In p pixels -> 0 <= p <= 255) ->
  hash_bits pixels
  = Ok (map (fun pixel =>
               if Qle_bool (exact_mean pixels) (inject_Z pixel) then 1 else 0)
            pixels).
Proof.
  intros Hne Hlen Hrange. destruct pixels as [|x xs]; [congruence|].
  rewrite hash_bits_cons. f_equal. apply map_ext_in. intros p Hp.
  rewrite (Qle_bool_agree (fl (exact_mean (x :: xs))) (exact_mean (x :: xs))).
  - reflexivity.
  - unfold exact_mean. apply fl_keeps_order.
    + pose proof (len_pos x xs). lia.
    + now apply Hrange.
Qed.

Lemma exact_mean_repeat (p : Z) (n : nat) :
  (0 < n)%nat -> (exact_mean (repeat p n) == inject_Z p)%Q.
Proof.
  intro Hn. unfold exact_mean, len.
  rewrite py_sum_repeat, repeat_length, Qdiv_as_fraction by lia.
  unfold Qeq, inject_Z; simpl. rewrite Z2Pos.id by lia. ring.
Qed.

(** A constant pixel list hashes to ones only. *)
Lemma hash_bits_uniform (p : Z) (n : nat) :
  (0 < n)%nat -> 0 <= p <= 255 ->
  hash_bits (repeat p n) = Ok (repeat 1 n).
Proof.
  intros Hn Hp.
  assert (Hmean : (fl (exact_mean (repeat p n)) <= inject_Z p)%Q).
  { rewrite (fl_proper _ _ (exact_mean_repeat p n Hn)), fl_int by lia.
    apply Qle_refl. }
  apply Qle_bool_iff in Hmean.
  destruct n as [|n]; [lia|].
  change (repeat p (S n)) with (p :: repeat p n) at 1.
  rewrite hash_bits_cons.
  change (p :: repeat p n) with (repeat p (S n)).
  rewrite map_repeat, Hmean. reflexivity.
Qed.

End Extractor.

(** * The distance *)

(** C5: on hashes of equal length [hamming_distance] is the number of
    positions at which they differ; it is symmetric, zero exactly when the
    two are equal, and lies between 0 and the length. *)
Theorem hamming_distance_metric (a b : fingerprint) :
  length a = length b ->
  hamming_distance a b = Z.of_nat (length (differing_positions a b))
  /\ hamming_distance a b = hamming_distance b a
  /\ (hamming_distance a b = 0 <-> a = b)
  /\ 0 <= hamming_distance a b <= len a.
Proof.
  intro Hlen. repeat split.
  - now apply hamming_counts.
  - apply hamming_sym.
  - now apply hamming_zero_eq.
  - intros ->. apply hamming_refl.
  - apply hamming_nonneg.
  - apply hamming_le_len_l.
Qed.

Lemma hamming_distance_metric_witness :
  length [1; 0; 1; 1] = length [1; 1; 0; 1]
  /\ hamming_distance [1; 0; 1; 1] [1; 1; 0; 1] = 2
  /\ (hamming_distance [1; 0; 1; 1] [1; 1; 0; 1] = 0
      <-> [1; 0; 1; 1] = [1; 1; 0; 1]).
Proof.
  split; [reflexivity|].
  destruct (hamming_distance_metric [1; 0; 1; 1] [1; 1; 0; 1] eq_refl)
    as [Hcount [_ [Hzero _]]].
  split; [exact Hcount | exact Hzero].
Defined.

(** C3, as the code has it: [hamming_distance] checks no length and has no
    failing case.  Whatever the two lengths, it returns the number of
    differing positions among the first [min (len a) (len b)], which is the
    specified distance of the two prefixes of that length. *)
Theorem hamming_distance_ignores_longer_tail (a b : fingerprint) :
  let n := Nat.min (length a) (length b) in
  spec_distance (firstn n a) (firstn n b) = Some (hamming_distance a b).
Proof.
  intro n. unfold spec_distance.
  assert (Hlen : length (firstn n a) = length (firstn n b)).
  { subst n. rewrite !length_firstn. lia. }
  rewrite Hlen, Nat.eqb_refl. f_equal.
  rewrite <- hamming_counts by exact Hlen.
  symmetry. apply hamming_truncates.
Qed.

(** C3, as the specification states it, fails: on a 4-bit and a 2-bit hash
    the specified distance is an error, and the code returns 0. *)
Lemma hamming_distance_no_length_check :
  length [1; 0; 1; 1] <> length [1; 0]
  /\ spec_distance [1; 0; 1; 1] [1; 0] = None
  /\ hamming_distance [1; 0; 1; 1] [1; 0] = 0.
Proof. repeat split. discriminate. Qed.

(** * The extractor *)

Lemma hamming_repeat (x : Z) (n m : nat) :
  hamming_distance (repeat x n) (repeat x m) = 0.
Proof.
  revert m; induction n as [|n IH]; intros [|m]; try reflexivity.
  cbn [repeat]. rewrite hamming_cons, IH, Z.eqb_refl. reflexivity.
Qed.

Lemma square_pos (n : nat) : (0 < n)%nat -> (0 < n * n)%nat.
Proof. intro Hn. destruct n; [lia | simpl; lia]. Qed.

(** C4: whenever [average_hash] returns, the hash has
    [hash_size * hash_size] bits, and bit [i] is 1 when pixel [i] of the
    grayscale resample is at least the exact mean of the pixels, 0
    otherwise.  It returns whenever Pillow delivers the resample and
    [hash_size] is positive: it raises only what Pillow raises, or
    [ZeroDivisionError] on an empty resample.  The bound on the number of
    pixels, far above what an image can hold, is what lets the float [avg]
    stand for the exact mean. *)
Theorem average_hash_bits `{Float64} `{Pillow}
    (image : Image) (hash_size : nat) :
  Z.of_nat (hash_size * hash_size) <= 2 ^ 44 ->
  match average_hash image hash_size with
  | Ok bits =>
      exists pixels : list Z,
        gray_pixels image hash_size = Ok pixels
        /\ (0 < hash_size)%nat
        /\ length bits = (hash_size * hash_size)%nat
        /\ forall i : nat,
            (i < hash_size * hash_size)%nat ->
            nth i bits 0 = spec_bit pixels i
  | Raise e =>
      gray_pixels image hash_size = Raise e
      \/ (hash_size = 0%nat /\ e = ZeroDivisionError)
  end.
Proof.
  intro Hbound. unfold average_hash.
  pose proof (gray_pixels_length image hash_size) as Hlen.
  pose proof (gray_pixels_range image hash_size) as Hrange.
  destruct (gray_pixels image hash_size) as [pixels|e]; [|now left].
  specialize (Hlen pixels eq_refl). specialize (Hrange pixels).
  destruct pixels as [|x xs].
  - rewrite hash_bits_nil. right. split; [|reflexivity].
    cbn [length] in Hlen. destruct hash_size; [reflexivity | discriminate].
  - rewrite hash_bits_exact.
    + exists (x :: xs). split; [reflexivity|].
      split; [destruct hash_size; [discriminate | lia]|].
      split; [now rewrite length_map|].
      intros i Hi. unfold spec_bit.
      set (bit := fun pixel : Z =>
                    if Qle_bool (exact_mean (x :: xs)) (inject_Z pixel)
                    then 1 else 0).
      rewrite (nth_indep _ 0 (bit 0)) by (rewrite length_map; lia).
      apply map_nth.
    + discriminate.
    + unfold len. rewrite Hlen. exact Hbound.
    + intros p Hp. now apply Hrange.
Qed.

Lemma average_hash_bits_witness :
  Z.of_nat (2 * 2) <= 2 ^ 44
  /\ match @average_hash grid_float raster [10; 200; 30; 40] 2 with
     | Ok bits =>
         exists pixels : list Z,
           @gray_pixels raster [10; 200; 30; 40] 2 = Ok pixels
           /\ (0 < 2)%nat
           /\ length bits = (2 * 2)%nat
           /\ forall i : nat,
               (i < 2 * 2)%nat -> nth i bits 0 = spec_bit pixels i
     | Raise e =>
         @gray_pixels raster [10; 200; 30; 40] 2 = Raise e
         \/ (2%nat = 0%nat /\ e = ZeroDivisionError)
     end.
Proof.
  assert (Hbound : Z.of_nat (2 * 2) <= 2 ^ 44) by (vm_compute; discriminate).
  split; [exact Hbound|].
  exact (@average_hash_bits grid_float raster [10; 200; 30; 40] 2 Hbound).
Defined.

(** The hash of that image, computed: only the second pixel reaches the mean
    of 70. *)
Example average_hash_example :
  @average_hash grid_float raster [10; 200; 30; 40] 2 = Ok [0; 1; 0; 0].
Proof. vm_compute. reflexivity. Qed.

(** The mean is not the truncated one: of the pixels 0, 1, 1, 1 the first is
    below the mean 3/4 and at the truncated mean 0. *)
Example mean_is_not_truncated :
  @average_hash grid_float raster [0; 1; 1; 1] 2 = Ok [0; 1; 1; 1]
  /\ Qle_bool (truncated_mean [0; 1; 1; 1]) (inject_Z 0) = true.
Proof. split; vm_compute; reflexivity. Qed.

(** C10: an image whose resample is constant hashes to ones only, whatever
    the intensity; so the hashes of two such images are at distance 0. *)
Theorem uniform_image_hash `{Float64} `{Pillow}
    (image1 image2 : Image) (size1 size2 : nat) (p1 p2 : Z) :
  (0 < size1)%nat ->
  (0 < size2)%nat ->
  gray_pixels image1 size1 = Ok (repeat p1 (size1 * size1)) ->
  gray_pixels image2 size2 = Ok (repeat p2 (size2 * size2)) ->
  exists hash1 hash2 : fingerprint,
    average_hash image1 size1 = Ok hash1
    /\ average_hash image2 size2 = Ok hash2
    /\ hash1 = repeat 1 (size1 * size1)
    /\ hash2 = repeat 1 (size2 * size2)
    /\ hamming_distance hash1 hash2 = 0.
Proof.
  intros Hs1 Hs2 Hp1 Hp2.
  assert (Hr1 : 0 <= p1 <= 255).
  { apply (gray_pixels_range image1 size1 _ p1 Hp1).
    pose proof (square_pos size1 Hs1).
    destruct (size1 * size1)%nat; [lia | now left]. }
  assert (Hr2 : 0 <= p2 <= 255).
  { apply (gray_pixels_range image2 size2 _ p2 Hp2).
    pose proof (square_pos size2 Hs2).
    destruct (size2 * size2)%nat; [lia | now left]. }
  exists (repeat 1 (size1 * size1)), (repeat 1 (size2 * size2)).
  unfold average_hash. rewrite Hp1, Hp2.
  rewrite !hash_bits_uniform by (try apply square_pos; assumption).
  repeat split. apply hamming_repeat.
Qed.

Lemma uniform_image_hash_witness :
  exists hash1 hash2 : fingerprint,
    @average_hash grid_float raster (repeat 29 64) 8 = Ok hash1
    /\ @average_hash grid_float raster (repeat 76 64) 8 = Ok hash2
    /\ hash1 = repeat 1 (8 * 8)
    /\ hash2 = repeat 1 (8 * 8)
    /\ hamming_distance hash1 hash2 = 0.
Proof.
  apply (@uniform_image_hash grid_float raster
           (repeat 29 64) (repeat 76 64) 8 8 29 76).
  - lia.
  - lia.
  - reflexivity.
  - reflexivity.
Defined.

(** * The classifier *)

(** ** Facts about [scan] *)

Lemma scan_far_prefix (threshold : Z) (img_hash : fingerprint)
    (before rest : list fingerprint) :
  Forall (far threshold img_hash) before ->
  scan threshold img_hash (before ++ rest)
  = (fst (scan threshold img_hash rest),
     (length before + snd (scan threshold img_hash rest))%nat).
Proof.
  induction 1 as [|uhash before Hfar _ IH]; cbn [app scan length].
  - now destruct (scan threshold img_hash rest).
  - unfold far in Hfar.
    destruct (Z.leb_spec (hamming_distance img_hash uhash) threshold);
      [lia|].
    rewrite IH. reflexivity.
Qed.

Lemma scan_first_match (threshold : Z) (img_hash uhash : fingerprint)
    (before after : list fingerprint) :
  Forall (far threshold img_hash) before ->
  hamming_distance img_hash uhash <= threshold ->
  scan threshold img_hash (before ++ uhash :: after)
  = (true, S (length before)).
Proof.
  intros Hfar Hnear. rewrite scan_far_prefix by exact Hfar.
  cbn [scan].
  destruct (Z.leb_spec (hamming_distance img_hash uhash) threshold);
    [|lia].
  cbn [fst snd]. f_equal. lia.
Qed.

Lemma scan_no_match (threshold : Z) (img_hash : fingerprint)
    (hashes : list fingerprint) :
  Forall (far threshold img_hash) hashes ->
  scan threshold img_hash hashes = (false, length hashes).
Proof.
  intro Hfar. rewrite <- (app_nil_r hashes) at 1.
  rewrite scan_far_prefix by exact Hfar. cbn [scan fst snd].
  f_equal. lia.
Qed.

(** Either some kept hash is within the threshold, and then there is a first
    one, or none is. *)
Lemma first_match_or_none (threshold : Z) (img_hash : fingerprint)
    (hashes : list fingerprint) :
  (exists before uhash after,
      hashes = before ++ uhash :: after
      /\ Forall (far threshold img_hash) before
      /\ hamming_distance img_hash uhash <= threshold)
  \/ Forall (far threshold img_hash) hashes.
Proof.
  induction hashes as [|uhash rest IH].
  - right. constructor.
  - destruct (Z.leb_spec (hamming_distance img_hash uhash) threshold)
      as [Hnear|Hfar].
    + left. exists [], uhash, rest. repeat split; [constructor | exact Hnear].
    + destruct IH as [(before & m & after & -> & Hbefore & Hnear)|Hall].
      * left. exists (uhash :: before), m, after.
        repeat split; [now constructor | exact Hnear].
      * right. now constructor.
Qed.

(** ** Facts about the two lists of the accepted set *)

Lemma combine_app_aligned {A B : Type} (xs xs' : list A) (ys ys' : list B) :
  length xs = length ys ->
  combine (xs ++ xs') (ys ++ ys') = combine xs ys ++ combine xs' ys'.
Proof.
  revert ys; induction xs as [|x xs IH]; intros [|y ys] Hlen;
    try discriminate; cbn [app combine].
  - reflexivity.
  - f_equal. apply IH. now injection Hlen.
Qed.

(** A position in the hashes is a position in the accepted set. *)
Lemma split_aligned {A B : Type} (before after : list A) (x : A)
    (ys : list B) :
  length (before ++ x :: after) = length ys ->
  exists ys1 y ys2,
    ys = ys1 ++ y :: ys2
    /\ length ys1 = length before
    /\ combine (before ++ x :: after) ys
       = combine before ys1 ++ (x, y) :: combine after ys2.
Proof.
  revert ys; induction before as [|b before IH]; intros [|y ys] Hlen;
    try discriminate.
  - exists [], y, ys. repeat split.
  - cbn [app length] in Hlen. injection Hlen as Hlen.
    destruct (IH ys Hlen) as (ys1 & y' & ys2 & -> & Hl & Hc).
    exists (y :: ys1), y', ys2. cbn [app combine length].
    rewrite Hc, Hl. repeat split.
Qed.

Lemma Forall_combine_fst {A B : Type} (P : A -> Prop)
    (xs : list A) (ys : list B) :
  Forall P xs -> Forall (fun m => P (fst m)) (combine xs ys).
Proof.
  intro HP. revert ys; induction HP as [|x xs Hx _ IH]; intros [|y ys];
    cbn [combine]; constructor; [exact Hx | apply IH].
Qed.

Lemma map_fst_combine {A B : Type} (xs : list A) (ys : list B) :
  length xs = length ys -> map fst (combine xs ys) = xs.
Proof.
  revert ys; induction xs as [|x xs IH]; intros [|y ys] Hlen;
    try discriminate; cbn [combine map fst].
  - reflexivity.
  - f_equal. apply IH. now injection Hlen.
Qed.

Lemma length_combine_aligned {A B : Type} (xs : list A) (ys : list B) :
  length xs = length ys -> length (combine xs ys) = length xs.
Proof. intro Hlen. rewrite length_combine. lia. Qed.

(** ** The classification step *)

Lemma classify_duplicate (threshold : Z) (st : State) (path : string)
    (img_hash : fingerprint) (examined : nat) :
  scan threshold img_hash (unique_hashes st) = (true, examined) ->
  classify threshold st path img_hash
  = ({| unique_hashes := unique_hashes st;
        unique_filepaths := unique_filepaths st;
        duplicates := duplicates st ++ [path] |},
     Duplicate_of (nth (examined - 1) (unique_filepaths st) path)).
Proof. intro Hscan. unfold classify. rewrite Hscan. reflexivity. Qed.

Lemma classify_unique (threshold : Z) (st : State) (path : string)
    (img_hash : fingerprint) (examined : nat) :
  scan threshold img_hash (unique_hashes st) = (false, examined) ->
  classify threshold st path img_hash
  = ({| unique_hashes := unique_hashes st ++ [img_hash];
        unique_filepaths := unique_filepaths st ++ [path];
        duplicates := duplicates st |},
     Unique).
Proof. intro Hscan. unfold classify. rewrite Hscan. reflexivity. Qed.

(** C1: the classification scans the accepted set in order.  If some member
    is within the threshold, then at the first such member the scan stops (it
    has compared as many hashes as there are members up to that one, and what
    follows that member has no influence), the verdict is a duplicate of that
    member's path, the accepted set is left as it was and the path joins the
    duplicates.  If no member is within the threshold the hash and the path
    are appended to the accepted set and the verdict is unique. *)
Theorem classify_first_match (threshold : Z) (st : State) (path : string)
    (img_hash : fingerprint) :
  aligned st ->
  (exists (before : list (fingerprint * string)) (member : fingerprint)
          (representative : string) (after : list (fingerprint * string)),
      AcceptedSet st = before ++ (member, representative) :: after
      /\ Forall (fun m => far threshold img_hash (fst m)) before
      /\ hamming_distance img_hash member <= threshold
      /\ scan threshold img_hash (unique_hashes st)
         = (true, S (length before))
      /\ (forall others : list fingerprint,
             scan threshold img_hash (map fst before ++ member :: others)
             = (true, S (length before)))
      /\ snd (classify threshold st path img_hash)
         = Duplicate_of representative
      /\ AcceptedSet (fst (classify threshold st path img_hash))
         = AcceptedSet st
      /\ duplicates (fst (classify threshold st path img_hash))
         = duplicates st ++ [path])
  \/ (Forall (fun m => far threshold img_hash (fst m)) (AcceptedSet st)
      /\ snd (classify threshold st path img_hash) = Unique
      /\ AcceptedSet (fst (classify threshold st path img_hash))
         = AcceptedSet st ++ [(img_hash, path)]
      /\ duplicates (fst (classify threshold st path img_hash))
         = duplicates st).
Proof.
  intro Haligned. unfold aligned in Haligned.
  destruct (first_match_or_none threshold img_hash (unique_hashes st))
    as [(hb & member & ha & Hsplit & Hfar & Hnear)|Hfar].
  - left.
    assert (Hlen : length (hb ++ member :: ha)
                   = length (unique_filepaths st)) by now rewrite <- Hsplit.
    destruct (split_aligned hb ha member (unique_filepaths st) Hlen)
      as (p1 & representative & p2 & Hpaths & Hp1 & Hcombine).
    assert (Hscan : scan threshold img_hash (unique_hashes st)
                    = (true, S (length hb))).
    { rewrite Hsplit. now apply scan_first_match. }
    exists (combine hb p1), member, representative, (combine ha p2).
    rewrite length_combine_aligned, map_fst_combine by congruence.
    repeat split.
    + unfold AcceptedSet. rewrite Hsplit. exact Hcombine.
    + now apply Forall_combine_fst.
    + exact Hnear.
    + exact Hscan.
    + intro others. now apply scan_first_match.
    + rewrite (classify_duplicate _ _ _ _ _ Hscan). cbn [snd]. f_equal.
      rewrite Hpaths. replace (S (length hb) - 1)%nat with (length p1) by lia.
      apply nth_middle.
    + rewrite (classify_duplicate _ _ _ _ _ Hscan). reflexivity.
    + rewrite (classify_duplicate _ _ _ _ _ Hscan). reflexivity.
  - right.
    rewrite (classify_unique _ _ _ _ _ (scan_no_match _ _ _ Hfar)).
    repeat split.
    + now apply Forall_combine_fst.
    + unfold AcceptedSet; cbn [fst unique_hashes unique_filepaths].
      now rewrite combine_app_aligned.
Qed.

Lemma classify_first_match_witness :
  aligned two_kept
  /\ ((exists (before : list (fingerprint * string)) (member : fingerprint)
              (representative : string)
              (after : list (fingerprint * string)),
          AcceptedSet two_kept = before ++ (member, representative) :: after
          /\ Forall (fun m => far 5 near_second (fst m)) before
          /\ hamming_distance near_second member <= 5
          /\ scan 5 near_second (unique_hashes two_kept)
             = (true, S (length before))
          /\ (forall others : list fingerprint,
                 scan 5 near_second (map fst before ++ member :: others)
                 = (true, S (length before)))
          /\ snd (classify 5 two_kept "c.png" near_second)
             = Duplicate_of representative
          /\ AcceptedSet (fst (classify 5 two_kept "c.png" near_second))
             = AcceptedSet two_kept
          /\ duplicates (fst (classify 5 two_kept "c.png" near_second))
             = duplicates two_kept ++ ["c.png"%string])
      \/ (Forall (fun m => far 5 near_second (fst m)) (AcceptedSet two_kept)
          /\ snd (classify 5 two_kept "c.png" near_second) = Unique
          /\ AcceptedSet (fst (classify 5 two_kept "c.png" near_second))
             = AcceptedSet two_kept ++ [(near_second, "c.png"%string)]
          /\ duplicates (fst (classify 5 two_kept "c.png" near_second))
             = duplicates two_kept)).
Proof.
  assert (Haligned : aligned two_kept) by reflexivity.
  split; [exact Haligned|].
  exact (classify_first_match 5 two_kept "c.png" near_second Haligned).
Defined.

(** On that state the scan passes the first kept hash (7 bits away), stops
    at the second (1 bit away) and names its path. *)
Example classify_example :
  scan 5 near_second (unique_hashes two_kept) = (true, 2%nat)
  /\ snd (classify 5 two_kept "c.png" near_second) = Duplicate_of "b.png".
Proof. split; reflexivity. Qed.

(** * The loop *)

Lemma scan_false_far (threshold : Z) (img_hash : fingerprint)
    (hashes : list fingerprint) :
  fst (scan threshold img_hash hashes) = false ->
  Forall (far threshold img_hash) hashes.
Proof.
  intro Hscan.
  destruct (first_match_or_none threshold img_hash hashes)
    as [(before & uhash & after & -> & Hfar & Hnear)|Hfar]; [|exact Hfar].
  rewrite scan_first_match in Hscan by assumption. discriminate.
Qed.

Lemma pairwise_far_nil (threshold : Z) : pairwise_far threshold [].
Proof. intros [|i] j a b _ Hi; discriminate. Qed.

Lemma pairwise_far_snoc (threshold : Z) (hashes : list fingerprint)
    (img_hash : fingerprint) :
  pairwise_far threshold hashes ->
  Forall (far threshold img_hash) hashes ->
  pairwise_far threshold (hashes ++ [img_hash]).
Proof.
  intros Hpair Hfar i j a b Hij Hi Hj.
  rewrite Forall_forall in Hfar.
  assert (Hlast : forall k x, nth_error (hashes ++ [img_hash]) k = Some x ->
                              (length hashes <= k)%nat -> x = img_hash).
  { intros k x Hk Hge. rewrite nth_error_app2 in Hk by exact Hge.
    destruct (k - length hashes)%nat as [|[|d]]; cbn in Hk; congruence. }
  destruct (Nat.lt_ge_cases i (length hashes)) as [Hi_old|Hi_new];
    destruct (Nat.lt_ge_cases j (length hashes)) as [Hj_old|Hj_new].
  - rewrite nth_error_app1 in Hi, Hj by assumption.
    exact (Hpair i j a b Hij Hi Hj).
  - rewrite nth_error_app1 in Hi by assumption.
    rewrite (Hlast j b Hj Hj_new), hamming_sym.
    apply Hfar. exact (nth_error_In _ _ Hi).
  - rewrite nth_error_app1 in Hj by assumption.
    rewrite (Hlast i a Hi Hi_new).
    apply Hfar. exact (nth_error_In _ _ Hj).
  - assert (i < length (hashes ++ [img_hash]))%nat
      by (apply nth_error_Some; congruence).
    assert (j < length (hashes ++ [img_hash]))%nat
      by (apply nth_error_Some; congruence).
    rewrite length_app in *. cbn [length] in *. lia.
Qed.

Lemma well_kept_initial (threshold : Z) : well_kept threshold initial.
Proof. split; [reflexivity | apply pairwise_far_nil]. Qed.

Lemma classify_keeps (threshold : Z) (st : State) (path : string)
    (img_hash : fingerprint) :
  well_kept threshold st ->
  well_kept threshold (fst (classify threshold st path img_hash))
  /\ exists added,
      AcceptedSet (fst (classify threshold st path img_hash))
      = AcceptedSet st ++ added.
Proof.
  intros [Haligned Hpair]. unfold aligned in Haligned.
  destruct (scan threshold img_hash (unique_hashes st))
    as [[|] examined] eqn:Hscan.
  - rewrite (classify_duplicate _ _ _ _ _ Hscan). cbn [fst].
    split; [split; assumption|]. exists []. unfold AcceptedSet; cbn.
    now rewrite app_nil_r.
  - rewrite (classify_unique _ _ _ _ _ Hscan). cbn [fst].
    split; [split|].
    + unfold aligned; cbn. rewrite !length_app. cbn [length]. lia.
    + cbn. apply pairwise_far_snoc; [exact Hpair|].
      apply scan_false_far. now rewrite Hscan.
    + exists [(img_hash, path)]. unfold AcceptedSet; cbn.
      now rewrite combine_app_aligned.
Qed.

Section Loop.
Context `{Float64} `{Pillow}.
Variables threshold max_image_size : Z.

Lemma process_image_skips (st : State) (f : image_file)
    (reason : skip_reason) :
  try_hash max_image_size f = inl reason ->
  process_image threshold max_image_size st f = (st, Skipped reason).
Proof. intro Htry. unfold process_image. now rewrite Htry. Qed.

Lemma process_image_classifies (st : State) (f : image_file)
    (img_hash : fingerprint) :
  try_hash max_image_size f = inr img_hash ->
  process_image threshold max_image_size st f
  = classify threshold st (img_path f) img_hash.
Proof. intro Htry. unfold process_image. now rewrite Htry. Qed.

Lemma process_image_keeps (st : State) (f : image_file) :
  well_kept threshold st ->
  well_kept threshold (fst (process_image threshold max_image_size st f))
  /\ exists added,
      AcceptedSet (fst (process_image threshold max_image_size st f))
      = AcceptedSet st ++ added.
Proof.
  intro Hkept. unfold process_image.
  destruct (try_hash max_image_size f) as [reason|img_hash].
  - cbn [fst]. split; [exact Hkept|]. exists []. now rewrite app_nil_r.
  - now apply classify_keeps.
Qed.

Lemma run_cons (st : State) (f : image_file) (rest : list image_file) :
  run threshold max_image_size st (f :: rest)
  = (snd (process_image threshold max_image_size st f)
       :: fst (run threshold max_image_size
                 (fst (process_image threshold max_image_size st f)) rest),
     snd (run threshold max_image_size
            (fst (process_image threshold max_image_size st f)) rest)).
Proof.
  cbn [run].
  destruct (process_image threshold max_image_size st f) as [st1 v].
  cbn [fst snd].
  now destruct (run threshold max_image_size st1 rest).
Qed.

Lemma run_app (st : State) (xs ys : list image_file) :
  run threshold max_image_size st (xs ++ ys)
  = (fst (run threshold max_image_size st xs)
       ++ fst (run threshold max_image_size
                 (snd (run threshold max_image_size st xs)) ys),
     snd (run threshold max_image_size
            (snd (run threshold max_image_size st xs)) ys)).
Proof.
  revert st; induction xs as [|f xs IH]; intro st.
  - cbn [app run fst snd].
    now destruct (run threshold max_image_size st ys).
  - rewrite <- app_comm_cons, !run_cons, IH. reflexivity.
Qed.

Lemma run_length (st : State) (files : list image_file) :
  length (fst (run threshold max_image_size st files)) = length files.
Proof.
  revert st; induction files as [|f files IH]; intro st.
  - reflexivity.
  - rewrite run_cons. cbn [fst length]. now rewrite IH.
Qed.

Lemma run_keeps (st : State) (files : list image_file) :
  well_kept threshold st ->
  well_kept threshold (snd (run threshold max_image_size st files))
  /\ exists added,
      AcceptedSet (snd (run threshold max_image_size st files))
      = AcceptedSet st ++ added.
Proof.
  revert st; induction files as [|f files IH]; intros st Hkept.
  - cbn [run snd]. split; [exact Hkept|]. exists []. now rewrite app_nil_r.
  - rewrite run_cons. cbn [snd].
    destruct (process_image_keeps st f Hkept) as [Hkept1 [added1 Hadd1]].
    destruct (IH _ Hkept1) as [Hkept2 [added2 Hadd2]].
    split; [exact Hkept2|]. exists (added1 ++ added2).
    now rewrite Hadd2, Hadd1, app_assoc.
Qed.

(** Every state of a run from the empty lists has its two unique lists in
    step. *)
Lemma run_aligned (files : list image_file) :
  aligned (snd (run threshold max_image_size initial files)).
Proof.
  now destruct (run_keeps initial files (well_kept_initial threshold))
    as [[Haligned _] _].
Qed.

End Loop.

(** C6: along a run the accepted set only gets longer at its end, and at
    every point of the run any two of its members are further apart than the
    threshold. *)
Theorem accepted_set_grows_and_stays_far `{Float64} `{Pillow}
    (threshold max_image_size : Z) (done rest : list image_file) :
  let st1 := snd (run threshold max_image_size initial done) in
  let st2 := snd (run threshold max_image_size initial (done ++ rest)) in
  (exists added, AcceptedSet st2 = AcceptedSet st1 ++ added)
  /\ pairwise_far threshold (map fst (AcceptedSet st1)).
Proof.
  intros st1 st2.
  destruct (run_keeps threshold max_image_size initial done
              (well_kept_initial threshold)) as [[Haligned Hpair] _].
  fold st1 in Haligned, Hpair. split.
  - subst st2. rewrite run_app. cbn [snd]. fold st1.
    now destruct (run_keeps threshold max_image_size st1 rest
                    (conj Haligned Hpair)) as [_ Hadded].
  - unfold AcceptedSet. now rewrite map_fst_combine.
Qed.

Lemma accepted_set_grows_and_stays_far_witness :
  let st1 := snd (@run grid_float raster 5 MAX_IMAGE_SIZE initial
                    [chain_a; chain_b]) in
  let st2 := snd (@run grid_float raster 5 MAX_IMAGE_SIZE initial
                    ([chain_a; chain_b] ++ [chain_c])) in
  (exists added, AcceptedSet st2 = AcceptedSet st1 ++ added)
  /\ pairwise_far 5 (map fst (AcceptedSet st1)).
Proof.
  exact (@accepted_set_grows_and_stays_far grid_float raster
           5 MAX_IMAGE_SIZE [chain_a; chain_b] [chain_c]).
Defined.

(** * Items that fail *)

Lemma try_hash_fails `{Float64} `{Pillow}
    (max_image_size : Z) (f : image_file) :
  fails max_image_size f ->
  exists reason, try_hash max_image_size f = inl reason.
Proof.
  intro Hfail. unfold fails in Hfail. unfold try_hash.
  destruct (getsize f) as [size|e0]; [|now exists (handler e0)].
  destruct (Z.gtb_spec size max_image_size) as [Hbig|Hsmall];
    [now exists FileTooLarge|].
  destruct (opened f) as [img|e1]; [|now exists (handler e1)].
  destruct (average_hash img HASH_SIZE) as [img_hash|e2] eqn:Hhash;
    [|now exists (handler e2)].
  destruct Hfail as [[e He]|[[size' [Hsize Hbig]]|[[e He]|Hhashing]]].
  - discriminate.
  - injection Hsize as <-. lia.
  - discriminate.
  - destruct Hhashing as (img' & e & Himg & He).
    injection Himg as <-. congruence.
Qed.

(** C9: an item that fails (see [fails]) does not stop the loop.  Its
    iteration leaves every state as it finds it and answers [Skipped]; the run
    with the item gives the other items the verdicts of the run without it,
    in the same final state. *)
Theorem failed_item_is_skipped `{Float64} `{Pillow}
    (threshold max_image_size : Z) (st : State)
    (before after : list image_file) (bad : image_file) :
  fails max_image_size bad ->
  exists (reason : skip_reason) (vs1 vs2 : list Verdict) (final : State),
    length vs1 = length before
    /\ length vs2 = length after
    /\ run threshold max_image_size st (before ++ after)
       = (vs1 ++ vs2, final)
    /\ run threshold max_image_size st (before ++ bad :: after)
       = (vs1 ++ Skipped reason :: vs2, final)
    /\ forall s : State,
        process_image threshold max_image_size s bad = (s, Skipped reason).
Proof.
  intro Hfail.
  destruct (try_hash_fails max_image_size bad Hfail) as [reason Htry].
  set (st1 := snd (run threshold max_image_size st before)).
  exists reason,
         (fst (run threshold max_image_size st before)),
         (fst (run threshold max_image_size st1 after)),
         (snd (run threshold max_image_size st1 after)).
  repeat split.
  - apply run_length.
  - apply run_length.
  - apply run_app.
  - rewrite run_app, run_cons. fold st1.
    rewrite (process_image_skips _ _ _ _ _ Htry). reflexivity.
  - intro s. now apply process_image_skips.
Qed.

Lemma failed_item_is_skipped_witness :
  exists (reason : skip_reason) (vs1 vs2 : list Verdict) (final : State),
    length vs1 = length [blue_square]
    /\ length vs2 = length [chain_c]
    /\ @run grid_float raster 5 MAX_IMAGE_SIZE initial
         ([blue_square] ++ [chain_c])
       = (vs1 ++ vs2, final)
    /\ @run grid_float raster 5 MAX_IMAGE_SIZE initial
         ([blue_square] ++ corrupt_file "broken.png" 120 :: [chain_c])
       = (vs1 ++ Skipped reason :: vs2, final)
    /\ forall s : State,
        @process_image grid_float raster 5 MAX_IMAGE_SIZE s
          (corrupt_file "broken.png" 120)
        = (s, Skipped reason).
Proof.
  apply (@failed_item_is_skipped grid_float raster 5 MAX_IMAGE_SIZE initial
           [blue_square] [chain_c] (corrupt_file "broken.png" 120)).
  right; right; left. exists OSError. reflexivity.
Defined.

(** That run, computed: the corrupt file is skipped between a unique image
    and another unique image, and two paths are kept. *)
Example corrupt_file_example :
  @run grid_float raster 5 MAX_IMAGE_SIZE initial
    [blue_square; corrupt_file "broken.png" 120; chain_c]
  = ([Unique; Skipped (InvalidOrCorrupted OSError); Unique],
     {| unique_hashes :=
          [repeat 1 64; repeat 0 8 ++ repeat 1 56];
        unique_filepaths := ["img1.png"%string; "C.png"%string];
        duplicates := [] |}).
Proof. vm_compute. reflexivity. Qed.

(** * Dependence on the order *)

Lemma scan_one_near (threshold : Z) (img_hash uhash : fingerprint) :
  hamming_distance uhash img_hash <= threshold ->
  scan threshold img_hash [uhash] = (true, 1%nat).
Proof.
  intro Hnear. rewrite hamming_sym in Hnear.
  apply (scan_first_match threshold img_hash uhash [] []);
    [constructor | exact Hnear].
Qed.

Lemma scan_one_far (threshold : Z) (img_hash uhash : fingerprint) :
  threshold < hamming_distance uhash img_hash ->
  scan threshold img_hash [uhash] = (false, 1%nat).
Proof.
  intro Hfar. rewrite hamming_sym in Hfar.
  apply (scan_no_match threshold img_hash [uhash]).
  constructor; [exact Hfar | constructor].
Qed.

(** What a run makes of a first image [x], a second [y] near [x] and a third
    [z] far from [x]: [x] is kept, [y] is a duplicate of [x] and is not kept,
    so [z] is compared with [x] alone and kept too. *)
Lemma run_near_then_far `{Float64} `{Pillow} (threshold max_image_size : Z)
    (x y z : image_file) (hx hy hz : fingerprint) :
  try_hash max_image_size x = inr hx ->
  try_hash max_image_size y = inr hy ->
  try_hash max_image_size z = inr hz ->
  hamming_distance hx hy <= threshold ->
  threshold < hamming_distance hx hz ->
  run threshold max_image_size initial [x; y; z]
  = ([Unique; Duplicate_of (img_path x); Unique],
     {| unique_hashes := [hx; hz];
        unique_filepaths := [img_path x; img_path z];
        duplicates := [img_path y] |}).
Proof.
  intros Hx Hy Hz Hnear Hfar.
  rewrite !run_cons.
  rewrite (process_image_classifies _ _ _ _ _ Hx).
  rewrite (classify_unique threshold initial (img_path x) hx 0 eq_refl).
  cbn [fst snd initial unique_hashes unique_filepaths duplicates app].
  rewrite (process_image_classifies _ _ _ _ _ Hy).
  rewrite (classify_duplicate threshold
             (Build_State [hx] [img_path x] []) (img_path y) hy 1
             (scan_one_near _ _ _ Hnear)).
  cbn [fst snd unique_hashes unique_filepaths duplicates app nth Nat.sub].
  rewrite (process_image_classifies _ _ _ _ _ Hz).
  rewrite (classify_unique threshold
             (Build_State [hx] [img_path x] [img_path y]) (img_path z) hz 1
             (scan_one_far _ _ _ Hfar)).
  reflexivity.
Qed.

(** C2, as the code has it: of three images with A near B, B near C and A
    far from C, the order A, B, C makes B a duplicate of A and keeps C as
    unique (C is compared with A only, B not being kept); the order C, B, A
    makes B a duplicate of C and keeps A as unique. *)
Theorem chain_of_three_depends_on_order `{Float64} `{Pillow}
    (threshold max_image_size : Z)
    (a b c : image_file) (ha hb hc : fingerprint) :
  try_hash max_image_size a = inr ha ->
  try_hash max_image_size b = inr hb ->
  try_hash max_image_size c = inr hc ->
  hamming_distance ha hb <= threshold ->
  hamming_distance hb hc <= threshold ->
  threshold < hamming_distance ha hc ->
  fst (run threshold max_image_size initial [a; b; c])
  = [Unique; Duplicate_of (img_path a); Unique]
  /\ fst (run threshold max_image_size initial [c; b; a])
     = [Unique; Duplicate_of (img_path c); Unique].
Proof.
  intros Ha Hb Hc Hab Hbc Hac. split.
  - now rewrite (run_near_then_far threshold max_image_size a b c ha hb hc).
  - rewrite (hamming_sym hb hc) in Hbc. rewrite (hamming_sym ha hc) in Hac.
    now rewrite (run_near_then_far threshold max_image_size c b a hc hb ha).
Qed.

Lemma chain_of_three_depends_on_order_witness :
  fst (@run grid_float raster 5 MAX_IMAGE_SIZE initial
         [chain_a; chain_b; chain_c])
  = [Unique; Duplicate_of (img_path chain_a); Unique]
  /\ fst (@run grid_float raster 5 MAX_IMAGE_SIZE initial
            [chain_c; chain_b; chain_a])
     = [Unique; Duplicate_of (img_path chain_c); Unique].
Proof.
  apply (@chain_of_three_depends_on_order grid_float raster 5 MAX_IMAGE_SIZE
           chain_a chain_b chain_c
           (repeat 1 64)
           (repeat 0 4 ++ repeat 1 60)
           (repeat 0 8 ++ repeat 1 56)).
  - vm_compute. reflexivity.
  - vm_compute. reflexivity.
  - vm_compute. reflexivity.
  - vm_compute. discriminate.
  - vm_compute. discriminate.
  - vm_compute. reflexivity.
Defined.

(** C2, as the specification states it, fails: the hashes of A, B and C are
    4, 4 and 8 bits apart, and with the threshold 5 the order A, B, C does
    not make C a duplicate of A, nor the order C, B, A make A a duplicate
    of C: each is unique. *)
Lemma third_of_chain_is_unique :
  @try_hash grid_float raster MAX_IMAGE_SIZE chain_a = inr (repeat 1 64)
  /\ @try_hash grid_float raster MAX_IMAGE_SIZE chain_b
     = inr (repeat 0 4 ++ repeat 1 60)
  /\ @try_hash grid_float raster MAX_IMAGE_SIZE chain_c
     = inr (repeat 0 8 ++ repeat 1 56)
  /\ hamming_distance (repeat 1 64) (repeat 0 4 ++ repeat 1 60) = 4
  /\ hamming_distance (repeat 0 4 ++ repeat 1 60) (repeat 0 8 ++ repeat 1 56)
     = 4
  /\ hamming_distance (repeat 1 64) (repeat 0 8 ++ repeat 1 56) = 8
  /\ @verdicts grid_float raster MAX_IMAGE_SIZE [chain_a; chain_b; chain_c]
     = [Unique; Duplicate_of "A.png"; Unique]
  /\ @verdicts grid_float raster MAX_IMAGE_SIZE [chain_a; chain_b; chain_c]
     <> [Unique; Duplicate_of "A.png"; Duplicate_of "A.png"]
  /\ @verdicts grid_float raster MAX_IMAGE_SIZE [chain_c; chain_b; chain_a]
     = [Unique; Duplicate_of "C.png"; Unique]
  /\ @verdicts grid_float raster MAX_IMAGE_SIZE [chain_c; chain_b; chain_a]
     <> [Unique; Duplicate_of "C.png"; Duplicate_of "C.png"].
Proof.
  repeat split; try (vm_compute; reflexivity); vm_compute; discriminate.
Qed.

(** * Flat images *)

Lemma try_hash_flat `{Float64} `{Pillow}
    (max_image_size : Z) (f : image_file) :
  flat_file max_image_size f ->
  try_hash max_image_size f = inr (repeat 1 (HASH_SIZE * HASH_SIZE)).
Proof.
  intros (size & img & p & Hsize & Hfits & Hopen & Hflat).
  unfold try_hash. rewrite Hsize.
  destruct (Z.gtb_spec size max_image_size) as [Hbig|_]; [lia|].
  rewrite Hopen. unfold average_hash. rewrite Hflat.
  rewrite hash_bits_uniform; [reflexivity | unfold HASH_SIZE; simpl; lia |].
  apply (gray_pixels_range img HASH_SIZE _ p Hflat). now left.
Qed.

(** What a run makes of a first image and two more, each near the first:
    the first is kept, the two others are duplicates of it. *)
Lemma run_near_twice `{Float64} `{Pillow} (threshold max_image_size : Z)
    (x y z : image_file) (hx hy hz : fingerprint) :
  try_hash max_image_size x = inr hx ->
  try_hash max_image_size y = inr hy ->
  try_hash max_image_size z = inr hz ->
  hamming_distance hx hy <= threshold ->
  hamming_distance hx hz <= threshold ->
  run threshold max_image_size initial [x; y; z]
  = ([Unique; Duplicate_of (img_path x); Duplicate_of (img_path x)],
     {| unique_hashes := [hx];
        unique_filepaths := [img_path x];
        duplicates := [img_path y; img_path z] |}).
Proof.
  intros Hx Hy Hz Hy_near Hz_near.
  rewrite !run_cons.
  rewrite (process_image_classifies _ _ _ _ _ Hx).
  rewrite (classify_unique threshold initial (img_path x) hx 0 eq_refl).
  cbn [fst snd initial unique_hashes unique_filepaths duplicates app].
  rewrite (process_image_classifies _ _ _ _ _ Hy).
  rewrite (classify_duplicate threshold
             (Build_State [hx] [img_path x] []) (img_path y) hy 1
             (scan_one_near _ _ _ Hy_near)).
  cbn [fst snd unique_hashes unique_filepaths duplicates app nth Nat.sub].
  rewrite (process_image_classifies _ _ _ _ _ Hz).
  rewrite (classify_duplicate threshold
             (Build_State [hx] [img_path x] [img_path y]) (img_path z) hz 1
             (scan_one_near _ _ _ Hz_near)).
  reflexivity.
Qed.

(** Three files that reach the hash step with flat images: the first is
    unique, the two others are its duplicates, and one image is kept. *)
Lemma flat_files_run `{Float64} `{Pillow}
    (max_image_size : Z) (img1 img2 img3 : image_file) :
  flat_file max_image_size img1 ->
  flat_file max_image_size img2 ->
  flat_file max_image_size img3 ->
  verdicts max_image_size [img1; img2; img3]
  = [Unique; Duplicate_of (img_path img1); Duplicate_of (img_path img1)]
  /\ length (accepted max_image_size [img1; img2; img3]) = 1%nat.
Proof.
  intros H1 H2 H3.
  apply try_hash_flat in H1, H2, H3.
  assert (Hnear : hamming_distance (repeat 1 (HASH_SIZE * HASH_SIZE))
                                   (repeat 1 (HASH_SIZE * HASH_SIZE))
                  <= HASH_DIFF_THRESHOLD).
  { rewrite hamming_refl. unfold HASH_DIFF_THRESHOLD. lia. }
  unfold verdicts, accepted, dedup.
  rewrite (run_near_twice HASH_DIFF_THRESHOLD max_image_size
             img1 img2 img3 _ _ _ H1 H2 H3 Hnear Hnear).
  split; reflexivity.
Qed.

Lemma delivered_flat `{Pillow} (max_image_size : Z) (f : image_file)
    (path : string) (image : Image) (p : Z) :
  delivered max_image_size f path image ->
  gray_pixels image HASH_SIZE = Ok (repeat p (HASH_SIZE * HASH_SIZE)) ->
  flat_file max_image_size f.
Proof.
  intros (_ & (size & Hsize & Hfits) & Hopen) Hflat.
  now exists size, image, p.
Qed.

Lemma classify_all_cons (threshold : Z) (st : State) (path : string)
    (img_hash : fingerprint) (rest : list (string * fingerprint)) :
  classify_all threshold st ((path, img_hash) :: rest)
  = (snd (classify threshold st path img_hash)
       :: fst (classify_all threshold
                 (fst (classify threshold st path img_hash)) rest),
     snd (classify_all threshold
            (fst (classify threshold st path img_hash)) rest)).
Proof.
  cbn [classify_all].
  destruct (classify threshold st path img_hash) as [st1 v]. cbn [fst snd].
  now destruct (classify_all threshold st1 rest).
Qed.

(** The classification loop on a first hash and two more, each within the
    threshold of the first. *)
Lemma classify_all_near_twice (threshold : Z) (path1 path2 path3 : string)
    (h1 h2 h3 : fingerprint) :
  hamming_distance h1 h2 <= threshold ->
  hamming_distance h1 h3 <= threshold ->
  classify_all threshold initial [(path1, h1); (path2, h2); (path3, h3)]
  = ([Unique; Duplicate_of path1; Duplicate_of path1],
     {| unique_hashes := [h1];
        unique_filepaths := [path1];
        duplicates := [path2; path3] |}).
Proof.
  intros Hnear2 Hnear3. rewrite !classify_all_cons.
  rewrite (classify_unique threshold initial path1 h1 0 eq_refl).
  cbn [fst snd initial unique_hashes unique_filepaths duplicates app].
  rewrite (classify_duplicate threshold
             (Build_State [h1] [path1] []) path2 h2 1
             (scan_one_near _ _ _ Hnear2)).
  cbn [fst snd unique_hashes unique_filepaths duplicates app nth Nat.sub].
  rewrite (classify_duplicate threshold
             (Build_State [h1] [path1] [path2]) path3 h3 1
             (scan_one_near _ _ _ Hnear3)).
  reflexivity.
Qed.

(** C7, as the code has it, for the three images as decoded (a flat blue
    square, its copy saved again as JPEG, a flat red square: the grayscale
    resample of each is constant).  [average_hash] gives all three the hash
    of ones only; the classification loop, given them in this order with
    the threshold 5, finds the first unique and the two others duplicates of
    the first, and keeps one image; and these are the verdicts of the
    script's loop whenever the three files pass its size check and its
    open, verify and load step.  What the script does with a file on which
    [img.load()] raises after [img.verify()] is not stated here. *)
Theorem flat_squares_are_one_cluster `{Float64} `{Pillow}
    (blue resaved red : Image) (b b' r : Z) (path1 path2 path3 : string) :
  gray_pixels blue HASH_SIZE = Ok (repeat b (HASH_SIZE * HASH_SIZE)) ->
  gray_pixels resaved HASH_SIZE = Ok (repeat b' (HASH_SIZE * HASH_SIZE)) ->
  gray_pixels red HASH_SIZE = Ok (repeat r (HASH_SIZE * HASH_SIZE)) ->
  let ones : fingerprint := repeat 1 (HASH_SIZE * HASH_SIZE) in
  average_hash blue HASH_SIZE = Ok ones
  /\ average_hash resaved HASH_SIZE = Ok ones
  /\ average_hash red HASH_SIZE = Ok ones
  /\ classify_all HASH_DIFF_THRESHOLD initial
       [(path1, ones); (path2, ones); (path3, ones)]
     = ([Unique; Duplicate_of path1; Duplicate_of path1],
        {| unique_hashes := [ones];
           unique_filepaths := [path1];
           duplicates := [path2; path3] |})
  /\ forall (max_image_size : Z) (img1 img2 img3 : image_file),
      delivered max_image_size img1 path1 blue ->
      delivered max_image_size img2 path2 resaved ->
      delivered max_image_size img3 path3 red ->
      verdicts max_image_size [img1; img2; img3]
      = [Unique; Duplicate_of path1; Duplicate_of path1]
      /\ length (accepted max_image_size [img1; img2; img3]) = 1%nat.
Proof.
  intros Hblue Hresaved Hred ones.
  assert (Hside : (0 < HASH_SIZE * HASH_SIZE)%nat)
    by (unfold HASH_SIZE; simpl; lia).
  assert (Hhash : forall (image : Image) (p : Z),
             gray_pixels image HASH_SIZE
             = Ok (repeat p (HASH_SIZE * HASH_SIZE)) ->
             average_hash image HASH_SIZE = Ok ones).
  { intros image p Hflat. unfold average_hash. rewrite Hflat.
    apply hash_bits_uniform; [exact Hside|].
    apply (gray_pixels_range image HASH_SIZE _ p Hflat). now left. }
  split; [exact (Hhash blue b Hblue)|].
  split; [exact (Hhash resaved b' Hresaved)|].
  split; [exact (Hhash red r Hred)|].
  split.
  - apply classify_all_near_twice;
      rewrite hamming_refl; unfold HASH_DIFF_THRESHOLD; lia.
  - intros max_image_size img1 img2 img3 H1 H2 H3.
    destruct (flat_files_run max_image_size img1 img2 img3
                (delivered_flat _ _ _ _ _ H1 Hblue)
                (delivered_flat _ _ _ _ _ H2 Hresaved)
                (delivered_flat _ _ _ _ _ H3 Hred)) as [Hverdicts Hkept].
    destruct H1 as [Hpath _]. rewrite Hpath in Hverdicts.
    split; assumption.
Qed.

Lemma flat_squares_are_one_cluster_witness :
  let blue : @Image raster := repeat 29 (100 * 100) in
  let resaved : @Image raster := repeat 29 (100 * 100) in
  let red : @Image raster := repeat 76 (100 * 100) in
  let ones : fingerprint := repeat 1 (HASH_SIZE * HASH_SIZE) in
  @average_hash grid_float raster blue HASH_SIZE = Ok ones
  /\ @average_hash grid_float raster resaved HASH_SIZE = Ok ones
  /\ @average_hash grid_float raster red HASH_SIZE = Ok ones
  /\ classify_all HASH_DIFF_THRESHOLD initial
       [("img1.png"%string, ones); ("img2.jpg"%string, ones);
        ("img3.png"%string, ones)]
     = ([Unique; Duplicate_of "img1.png"; Duplicate_of "img1.png"],
        {| unique_hashes := [ones];
           unique_filepaths := ["img1.png"%string];
           duplicates := ["img2.jpg"%string; "img3.png"%string] |})
  /\ forall (max_image_size : Z) (img1 img2 img3 : @image_file raster),
      delivered max_image_size img1 "img1.png" blue ->
      delivered max_image_size img2 "img2.jpg" resaved ->
      delivered max_image_size img3 "img3.png" red ->
      @verdicts grid_float raster max_image_size [img1; img2; img3]
      = [Unique; Duplicate_of "img1.png"; Duplicate_of "img1.png"]
      /\ length (@accepted grid_float raster max_image_size
                   [img1; img2; img3]) = 1%nat.
Proof.
  intros blue resaved red.
  apply (@flat_squares_are_one_cluster grid_float raster
           blue resaved red 29 29 76 "img1.png" "img2.jpg" "img3.png").
  - vm_compute. reflexivity.
  - vm_compute. reflexivity.
  - vm_compute. reflexivity.
Defined.

(** The files [blue_square], [resaved_decoded] and [red_square] are
    delivered in the sense of the theorem. *)
Example squares_are_delivered :
  @delivered raster MAX_IMAGE_SIZE blue_square "img1.png"
    (repeat 29 (100 * 100))
  /\ @delivered raster MAX_IMAGE_SIZE resaved_decoded "img2.jpg"
       (repeat 29 (100 * 100))
  /\ @delivered raster MAX_IMAGE_SIZE red_square "img3.png"
       (repeat 76 (100 * 100)).
Proof.
  repeat split; try reflexivity;
    (eexists; split; [reflexivity | vm_compute; discriminate]).
Qed.

(** C7, as the specification states it, fails on the named batch however the
    three files are answered.  Read as the script reads them, [img.load()]
    raising after [img.verify()], all three are skipped and nothing is kept.
    Delivered decoded, the red square is a duplicate of the blue one and one
    image is kept.  In neither case are the verdicts unique, duplicate of
    the first, unique, nor are two images kept. *)
Lemma named_batch_is_not_two_clusters :
  HASH_DIFF_THRESHOLD = 5
  /\ @dedup grid_float raster MAX_IMAGE_SIZE
       [load_fails "img1.png" 300; load_fails "img2.jpg" 900;
        load_fails "img3.png" 300]
     = ([Skipped (ProcessingError OtherException);
         Skipped (ProcessingError OtherException);
         Skipped (ProcessingError OtherException)],
        initial)
  /\ @verdicts grid_float raster MAX_IMAGE_SIZE
       [load_fails "img1.png" 300; load_fails "img2.jpg" 900;
        load_fails "img3.png" 300]
     <> [Unique; Duplicate_of "img1.png"; Unique]
  /\ length (@accepted grid_float raster MAX_IMAGE_SIZE
               [load_fails "img1.png" 300; load_fails "img2.jpg" 900;
                load_fails "img3.png" 300]) = 0%nat
  /\ @verdicts grid_float raster MAX_IMAGE_SIZE
       [blue_square; resaved_decoded; red_square]
     = [Unique; Duplicate_of "img1.png"; Duplicate_of "img1.png"]
  /\ @verdicts grid_float raster MAX_IMAGE_SIZE
       [blue_square; resaved_decoded; red_square]
     <> [Unique; Duplicate_of "img1.png"; Unique]
  /\ length (@accepted grid_float raster MAX_IMAGE_SIZE
               [blue_square; resaved_decoded; red_square]) = 1%nat.
Proof.
  repeat split; try (vm_compute; reflexivity); vm_compute; discriminate.
Qed.

(** * The relation and the function agree *)

Lemma scans_scan (threshold : Z) (img_hash : fingerprint)
    (hashes : list fingerprint) (is_dup : bool) (examined : nat) :
  scans threshold img_hash hashes is_dup examined ->
  scan threshold img_hash hashes = (is_dup, examined).
Proof.
  induction 1 as [|uhash rest Hnear|uhash rest is_dup examined Hfar _ IH];
    cbn [scan].
  - reflexivity.
  - destruct (Z.leb_spec (hamming_distance img_hash uhash) threshold);
      [reflexivity | lia].
  - destruct (Z.leb_spec (hamming_distance img_hash uhash) threshold);
      [lia|].
    now rewrite IH.
Qed.

Lemma scan_scans (threshold : Z) (img_hash : fingerprint)
    (hashes : list fingerprint) :
  scans threshold img_hash hashes
    (fst (scan threshold img_hash hashes))
    (snd (scan threshold img_hash hashes)).
Proof.
  induction hashes as [|uhash rest IH]; cbn [scan].
  - constructor.
  - destruct (Z.leb_spec (hamming_distance img_hash uhash) threshold)
      as [Hnear|Hfar].
    + now constructor.
    + destruct (scan threshold img_hash rest) as [is_dup examined].
      now constructor.
Qed.

Section Agreement.
Context `{Float64} `{Pillow}.
Variables threshold max_image_size : Z.

Lemma iteration_process_image (st st1 : State) (f : image_file)
    (v : Verdict) :
  iteration threshold max_image_size st f v st1 ->
  process_image threshold max_image_size st f = (st1, v).
Proof.
  intro Hstep. unfold process_image, try_hash.
  destruct Hstep as [e He|size Hsize Hbig|size e Hsize Hfits Hopen
                     |size img e Hsize Hfits Hopen Hhash
                     |size img img_hash examined Hsize Hfits Hopen Hhash Hscan
                     |size img img_hash examined Hsize Hfits Hopen Hhash Hscan].
  - now rewrite He.
  - rewrite Hsize. destruct (Z.gtb_spec size max_image_size); [easy | lia].
  - rewrite Hsize, Hopen.
    destruct (Z.gtb_spec size max_image_size); [lia | easy].
  - rewrite Hsize, Hopen, Hhash.
    destruct (Z.gtb_spec size max_image_size); [lia | easy].
  - rewrite Hsize, Hopen, Hhash.
    destruct (Z.gtb_spec size max_image_size); [lia|].
    apply classify_duplicate. now apply scans_scan.
  - rewrite Hsize, Hopen, Hhash.
    destruct (Z.gtb_spec size max_image_size); [lia|].
    apply (classify_unique _ _ _ _ examined). now apply scans_scan.
Qed.

Lemma process_image_iteration (st : State) (f : image_file) :
  iteration threshold max_image_size st f
    (snd (process_image threshold max_image_size st f))
    (fst (process_image threshold max_image_size st f)).
Proof.
  unfold process_image, try_hash.
  destruct (getsize f) as [size|e] eqn:Hsize;
    [|now apply iteration_getsize_raises].
  destruct (Z.gtb_spec size max_image_size) as [Hbig|Hfits];
    [now apply (iteration_too_large _ _ _ _ size)|].
  destruct (opened f) as [img|e] eqn:Hopen;
    [|now apply (iteration_open_raises _ _ _ _ size)].
  destruct (average_hash img HASH_SIZE) as [img_hash|e] eqn:Hhash;
    [|now apply (iteration_hash_raises _ _ _ _ size img)].
  pose proof (scan_scans threshold img_hash (unique_hashes st)) as Hscan.
  unfold classify.
  destruct (scan threshold img_hash (unique_hashes st)) as [[|] examined];
    cbn [fst snd] in *.
  - now apply (iteration_duplicate _ _ _ _ size img img_hash).
  - now apply (iteration_unique _ _ _ _ size img img_hash examined).
Qed.

Lemma loop_run (st final : State) (files : list image_file)
    (vs : list Verdict) :
  loop threshold max_image_size st files vs final ->
  run threshold max_image_size st files = (vs, final).
Proof.
  induction 1 as [st|st st1 st2 f rest v vs Hstep _ IH].
  - reflexivity.
  - rewrite run_cons, (iteration_process_image _ _ _ _ Hstep).
    cbn [fst snd]. now rewrite IH.
Qed.

Lemma run_loop (st : State) (files : list image_file) :
  loop threshold max_image_size st files
    (fst (run threshold max_image_size st files))
    (snd (run threshold max_image_size st files)).
Proof.
  revert st; induction files as [|f rest IH]; intro st.
  - constructor.
  - rewrite run_cons. cbn [fst snd].
    econstructor; [apply process_image_iteration | apply IH].
Qed.

End Agreement.

(** C8: the loop relates an input sequence to exactly one sequence of
    verdicts (and one final state): there is an outcome, and two runs over
    the same files with the same threshold and size limit end with the same
    verdicts. *)
Theorem loop_is_deterministic `{Float64} `{Pillow}
    (threshold max_image_size : Z) (image_files : list image_file) :
  (exists (vs : list Verdict) (final : State),
      loop threshold max_image_size initial image_files vs final)
  /\ forall (vs1 vs2 : list Verdict) (final1 final2 : State),
      loop threshold max_image_size initial image_files vs1 final1 ->
      loop threshold max_image_size initial image_files vs2 final2 ->
      vs1 = vs2 /\ final1 = final2.
Proof.
  split.
  - exists (fst (run threshold max_image_size initial image_files)),
           (snd (run threshold max_image_size initial image_files)).
    apply run_loop.
  - intros vs1 vs2 final1 final2 Hfirst Hsecond.
    apply loop_run in Hfirst, Hsecond.
    rewrite Hfirst in Hsecond. now injection Hsecond.
Qed.

Lemma loop_is_deterministic_witness :
  (exists (vs : list Verdict) (final : State),
      @loop grid_float raster 5 MAX_IMAGE_SIZE initial
        [blue_square; corrupt_file "broken.png" 120; chain_c] vs final)
  /\ forall (vs1 vs2 : list Verdict) (final1 final2 : State),
      @loop grid_float raster 5 MAX_IMAGE_SIZE initial
        [blue_square; corrupt_file "broken.png" 120; chain_c] vs1 final1 ->
      @loop grid_float raster 5 MAX_IMAGE_SIZE initial
        [blue_square; corrupt_file "broken.png" 120; chain_c] vs2 final2 ->
      vs1 = vs2 /\ final1 = final2.
Proof.
  exact (@loop_is_deterministic grid_float raster 5 MAX_IMAGE_SIZE
           [blue_square; corrupt_file "broken.png" 120; chain_c]).
Defined.

(** * What a run reports *)

Section Report.
Context `{Float64} `{Pillow}.
Variables threshold max_image_size : Z.

Lemma process_image_cases (st : State) (f : image_file) :
  (exists reason,
      process_image threshold max_image_size st f = (st, Skipped reason))
  \/ (exists representative,
         process_image threshold max_image_size st f
         = ({| unique_hashes := unique_hashes st;
               unique_filepaths := unique_filepaths st;
               duplicates := duplicates st ++ [img_path f] |},
            Duplicate_of representative))
  \/ (exists img_hash,
         try_hash max_image_size f = inr img_hash
         /\ process_image threshold max_image_size st f
            = ({| unique_hashes := unique_hashes st ++ [img_hash];
                  unique_filepaths := unique_filepaths st ++ [img_path f];
                  duplicates := duplicates st |},
               Unique)).
Proof.
  unfold process_image.
  destruct (try_hash max_image_size f) as [reason|img_hash].
  - left. now exists reason.
  - right. unfold classify.
    destruct (scan threshold img_hash (unique_hashes st)) as [[|] examined].
    + left. eexists. reflexivity.
    + right. exists img_hash. split; reflexivity.
Qed.

Lemma run_lists (st : State) (files : list image_file) :
  unique_filepaths (snd (run threshold max_image_size st files))
  = unique_filepaths st
      ++ paths_where is_unique files
           (fst (run threshold max_image_size st files))
  /\ duplicates (snd (run threshold max_image_size st files))
     = duplicates st
         ++ paths_where is_duplicate files
              (fst (run threshold max_image_size st files)).
Proof.
  revert st; induction files as [|f files IH]; intro st.
  - cbn. now rewrite !app_nil_r.
  - rewrite run_cons. cbn [fst snd]. unfold paths_where in *.
    cbn [combine filter].
    destruct (process_image_cases st f)
      as [[reason E]|[[representative E]|[img_hash [_ E]]]];
      rewrite E; cbn [fst snd is_unique is_duplicate map];
      match goal with
      | |- context [run threshold max_image_size ?s files] =>
          destruct (IH s) as [IHu IHd]
      end;
      rewrite IHu, IHd; cbn [unique_filepaths duplicates];
      rewrite <- ?app_assoc; split; reflexivity.
Qed.

End Report.

(** X1: at the end of the script's loop [unique_filepaths] holds the paths of
    the files found unique and [duplicates] those of the files found
    duplicate, each in the order of [image_files]. *)
Theorem report_lists `{Float64} `{Pillow}
    (threshold max_image_size : Z) (image_files : list image_file) :
  let vs := fst (run threshold max_image_size initial image_files) in
  let final := snd (run threshold max_image_size initial image_files) in
  unique_filepaths final = paths_where is_unique image_files vs
  /\ duplicates final = paths_where is_duplicate image_files vs.
Proof.
  intros vs final.
  destruct (run_lists threshold max_image_size initial image_files)
    as [Hu Hd].
  split; assumption.
Qed.

Lemma verdict_kinds_partition {A : Type} (l : list (A * Verdict)) :
  (length (filter (fun fv => is_unique (snd fv)) l)
   + length (filter (fun fv => is_duplicate (snd fv)) l)
   + length (filter (fun fv => is_skipped (snd fv)) l))%nat
  = length l.
Proof.
  induction l as [|[f v] l IH]; [reflexivity|].
  cbn [filter snd length]. destruct v; cbn [is_unique is_duplicate is_skipped
                                            length]; lia.
Qed.

(** X2: the counts the script prints add up: every entry of [image_files]
    is counted once, as unique, as duplicate or as skipped. *)
Theorem report_counts `{Float64} `{Pillow}
    (threshold max_image_size : Z) (image_files : list image_file) :
  let vs := fst (run threshold max_image_size initial image_files) in
  let final := snd (run threshold max_image_size initial image_files) in
  (length (unique_filepaths final) + length (duplicates final)
   + length (paths_where is_skipped image_files vs))%nat
  = length image_files.
Proof.
  intros vs final.
  destruct (run_lists threshold max_image_size initial image_files)
    as [Hu Hd].
  fold vs final in Hu, Hd. rewrite Hu, Hd. cbn [initial unique_filepaths
                                                 duplicates app].
  unfold paths_where. rewrite !length_map, verdict_kinds_partition.
  rewrite length_combine. subst vs. rewrite run_length. lia.
Qed.

(** * Running again on what was kept *)

Section Rerun.
Context `{Float64} `{Pillow}.
Variables threshold max_image_size : Z.

Lemma same_kept_refl (st : State) : same_kept st st.
Proof. split; reflexivity. Qed.

Lemma same_kept_trans (st1 st2 st3 : State) :
  same_kept st1 st2 -> same_kept st2 st3 -> same_kept st1 st3.
Proof. intros [E1 E2] [E3 E4]. split; congruence. Qed.

(** The verdict and the unique lists after an iteration depend on the unique
    lists only, not on [duplicates]. *)
Lemma process_image_same_kept (st st' : State) (f : image_file) :
  same_kept st st' ->
  snd (process_image threshold max_image_size st f)
  = snd (process_image threshold max_image_size st' f)
  /\ same_kept (fst (process_image threshold max_image_size st f))
               (fst (process_image threshold max_image_size st' f)).
Proof.
  intros [Eh Ep]. unfold process_image.
  destruct (try_hash max_image_size f) as [reason|img_hash].
  - split; [reflexivity | now split].
  - unfold classify. rewrite <- Eh, <- Ep.
    destruct (scan threshold img_hash (unique_hashes st)) as [[|] examined];
      cbn [fst snd]; (split; [reflexivity|]); split; cbn; congruence.
Qed.

Lemma unique_verdict_keeps_duplicates (st : State) (f : image_file) :
  snd (process_image threshold max_image_size st f) = Unique ->
  duplicates (fst (process_image threshold max_image_size st f))
  = duplicates st.
Proof.
  destruct (process_image_cases threshold max_image_size st f)
    as [[reason E]|[[representative E]|[img_hash [_ E]]]];
    rewrite E; cbn [fst snd]; intro Hv; try discriminate. reflexivity.
Qed.

Lemma rerun_kept (files : list image_file) (st st' : State) :
  same_kept st st' ->
  let kept := kept_files files (fst (run threshold max_image_size st files)) in
  fst (run threshold max_image_size st' kept) = repeat Unique (length kept)
  /\ same_kept (snd (run threshold max_image_size st' kept))
               (snd (run threshold max_image_size st files))
  /\ duplicates (snd (run threshold max_image_size st' kept))
     = duplicates st'.
Proof.
  revert st st'; induction files as [|f files IH]; intros st st' Hsame kept.
  - subst kept. cbn. split; [reflexivity|]. split; [|reflexivity].
    destruct Hsame; now split.
  - subst kept. rewrite run_cons. cbn [fst snd]. unfold kept_files.
    cbn [combine filter].
    destruct (process_image_same_kept st st' f Hsame) as [Hv Hnext].
    destruct (snd (process_image threshold max_image_size st f)) eqn:Ev;
      cbn [snd is_unique map fst].
    + (* unique: the file is kept and is unique again *)
      fold (kept_files files
              (fst (run threshold max_image_size
                      (fst (process_image threshold max_image_size st f))
                      files))).
      rewrite run_cons. cbn [fst snd length repeat].
      rewrite <- Hv.
      destruct (IH _ _ Hnext) as (IHv & IHs & IHd).
      rewrite IHv, IHd.
      rewrite (unique_verdict_keeps_duplicates st' f) by now rewrite <- Hv.
      repeat split; apply IHs.
    + (* duplicate: the file is dropped, the unique lists are as before *)
      fold (kept_files files
              (fst (run threshold max_image_size
                      (fst (process_image threshold max_image_size st f))
                      files))).
      apply IH.
      destruct (process_image_cases threshold max_image_size st f)
        as [[r E]|[[r E]|[h [_ E]]]]; rewrite E in Ev |- *;
        cbn [fst snd] in *; try discriminate.
      destruct Hsame; now split.
    + (* skipped: the state is as before *)
      fold (kept_files files
              (fst (run threshold max_image_size
                      (fst (process_image threshold max_image_size st f))
                      files))).
      apply IH.
      destruct (process_image_cases threshold max_image_size st f)
        as [[r E]|[[r E]|[h [_ E]]]]; rewrite E in Ev |- *;
        cbn [fst snd] in *; try discriminate.
      exact Hsame.
Qed.

End Rerun.

(** X3: running the loop again on the files it kept, in the same order,
    finds every one of them unique and ends with the same unique lists and
    no duplicate: duplicates and skipped files have no influence on what is
    kept. *)
Theorem kept_files_rerun `{Float64} `{Pillow}
    (threshold max_image_size : Z) (image_files : list image_file) :
  let final := snd (run threshold max_image_size initial image_files) in
  let kept :=
    kept_files image_files
      (fst (run threshold max_image_size initial image_files)) in
  run threshold max_image_size initial kept
  = (repeat Unique (length kept),
     {| unique_hashes := unique_hashes final;
        unique_filepaths := unique_filepaths final;
        duplicates := [] |}).
Proof.
  intros final kept.
  destruct (rerun_kept threshold max_image_size image_files initial initial
              (same_kept_refl initial)) as (Hv & [Hh Hp] & Hd).
  fold kept in Hv, Hh, Hp, Hd. fold final in Hh, Hp.
  destruct (run threshold max_image_size initial kept) as [vs [hs ps ds]].
  cbn in *. congruence.
Qed.

(** * Where duplicates come from *)

Section Provenance.
Context `{Float64} `{Pillow}.
Variables threshold max_image_size : Z.

(** The verdict of a file in a run is that of its iteration, started in the
    state the files before it leave. *)
Lemma verdict_at (st : State) (before after : list image_file)
    (f : image_file) :
  nth_error (fst (run threshold max_image_size st (before ++ f :: after)))
            (length before)
  = Some (snd (process_image threshold max_image_size
                 (snd (run threshold max_image_size st before)) f)).
Proof.
  rewrite run_app, run_cons. cbn [fst snd].
  rewrite nth_error_app2 by (rewrite run_length; lia).
  rewrite run_length, Nat.sub_diag. reflexivity.
Qed.

Lemma run_accepted (st : State) (files : list image_file) :
  aligned st ->
  AcceptedSet (snd (run threshold max_image_size st files))
  = AcceptedSet st
      ++ kept_entries max_image_size files
           (fst (run threshold max_image_size st files)).
Proof.
  revert st; induction files as [|f files IH]; intros st Haligned.
  - cbn. now rewrite app_nil_r.
  - rewrite run_cons. cbn [fst snd]. unfold kept_entries, kept_files in *.
    cbn [combine filter].
    destruct (process_image_cases threshold max_image_size st f)
      as [[reason E]|[[representative E]|[img_hash [Ehash E]]]];
      rewrite E; cbn [fst snd is_unique map flat_map].
    + now apply IH.
    + rewrite IH by exact Haligned. reflexivity.
    + rewrite IH, Ehash.
      * unfold AcceptedSet at 1. cbn [unique_hashes unique_filepaths].
        rewrite combine_app_aligned by exact Haligned.
        cbn [combine]. now rewrite <- app_assoc.
      * unfold aligned in *. cbn. rewrite !length_app. cbn [length]. lia.
Qed.

Lemma classify_duplicate_member (st : State) (path representative : string)
    (img_hash : fingerprint) :
  aligned st ->
  snd (classify threshold st path img_hash) = Duplicate_of representative ->
  exists member,
    In (member, representative) (AcceptedSet st)
    /\ hamming_distance img_hash member <= threshold.
Proof.
  intros Haligned Hdup. unfold aligned in Haligned.
  destruct (first_match_or_none threshold img_hash (unique_hashes st))
    as [(hb & member & ha & Hsplit & Hfar & Hnear)|Hfar].
  - assert (Hlen : length (hb ++ member :: ha)
                   = length (unique_filepaths st)) by now rewrite <- Hsplit.
    destruct (split_aligned hb ha member (unique_filepaths st) Hlen)
      as (p1 & r & p2 & Hpaths & Hp1 & Hcombine).
    assert (Hscan : scan threshold img_hash (unique_hashes st)
                    = (true, S (length hb))).
    { rewrite Hsplit. now apply scan_first_match. }
    rewrite (classify_duplicate _ _ _ _ _ Hscan) in Hdup. cbn [snd] in Hdup.
    rewrite Hpaths in Hdup.
    replace (S (length hb) - 1)%nat with (length p1) in Hdup by lia.
    rewrite nth_middle in Hdup. injection Hdup as <-.
    exists member. split; [|exact Hnear].
    unfold AcceptedSet. rewrite Hsplit, Hcombine.
    apply in_or_app. right. now left.
  - rewrite (classify_unique _ _ _ _ _ (scan_no_match _ _ _ Hfar)) in Hdup.
    discriminate.
Qed.

End Provenance.

(** X4: a file is found duplicate only of a file that comes before it in
    [image_files], was itself found unique, and whose hash is within the
    threshold of the file's own hash. *)
Theorem duplicate_of_earlier_unique `{Float64} `{Pillow}
    (threshold max_image_size : Z)
    (before after : list image_file) (f : image_file)
    (representative : string) :
  nth_error
    (fst (run threshold max_image_size initial (before ++ f :: after)))
    (length before)
  = Some (Duplicate_of representative) ->
  exists (g : image_file) (img_hash kept_hash : fingerprint),
    In g (kept_files before
            (fst (run threshold max_image_size initial before)))
    /\ img_path g = representative
    /\ try_hash max_image_size f = inr img_hash
    /\ try_hash max_image_size g = inr kept_hash
    /\ hamming_distance img_hash kept_hash <= threshold.
Proof.
  rewrite verdict_at. intro Hv. injection Hv as Hv.
  pose proof (run_aligned threshold max_image_size before) as Haligned.
  unfold process_image in Hv.
  destruct (try_hash max_image_size f) as [reason|img_hash] eqn:Ehash;
    [discriminate|].
  destruct (classify_duplicate_member threshold _ _ _ _ Haligned Hv)
    as (member & Hin & Hnear).
  rewrite (run_accepted threshold max_image_size initial before) in Hin
    by reflexivity.
  cbn [AcceptedSet initial unique_hashes unique_filepaths combine app] in Hin.
  unfold kept_entries in Hin. apply in_flat_map in Hin.
  destruct Hin as (g & Hg & Hentry).
  destruct (try_hash max_image_size g) as [reason|kept_hash] eqn:Eg;
    [contradiction|].
  destruct Hentry as [Hentry|[]]. injection Hentry as <- <-.
  exists g, img_hash, kept_hash. repeat split; assumption.
Qed.

Lemma duplicate_of_earlier_unique_witness :
  exists (g : @image_file raster) (img_hash kept_hash : fingerprint),
    In g (kept_files [chain_a]
            (fst (@run grid_float raster 5 MAX_IMAGE_SIZE initial [chain_a])))
    /\ img_path g = "A.png"%string
    /\ @try_hash grid_float raster MAX_IMAGE_SIZE chain_b = inr img_hash
    /\ @try_hash grid_float raster MAX_IMAGE_SIZE g = inr kept_hash
    /\ hamming_distance img_hash kept_hash <= 5.
Proof.
  apply (@duplicate_of_earlier_unique grid_float raster 5 MAX_IMAGE_SIZE
           [chain_a] [chain_c] chain_b "A.png").
  vm_compute. reflexivity.
Defined.

(** * What is kept covers what was seen *)

Section Cover.
Context `{Float64} `{Pillow}.
Variables threshold max_image_size : Z.

Lemma run_unique_lists_grow (st : State) (files : list image_file) :
  exists added_hashes added_paths,
    unique_hashes (snd (run threshold max_image_size st files))
    = unique_hashes st ++ added_hashes
    /\ unique_filepaths (snd (run threshold max_image_size st files))
       = unique_filepaths st ++ added_paths.
Proof.
  revert st; induction files as [|f files IH]; intro st.
  - exists [], []. cbn. now rewrite !app_nil_r.
  - rewrite run_cons. cbn [snd].
    destruct (IH (fst (process_image threshold max_image_size st f)))
      as (hs & ps & Eh & Ep).
    rewrite Eh, Ep.
    destruct (process_image_cases threshold max_image_size st f)
      as [[reason E]|[[representative E]|[img_hash [_ E]]]];
      rewrite E; cbn [fst unique_hashes unique_filepaths].
    + now exists hs, ps.
    + now exists hs, ps.
    + exists (img_hash :: hs), (img_path f :: ps).
      now rewrite <- !app_assoc.
Qed.

(** After the iteration of a hashed file some kept hash is within the
    threshold of its hash: the one it duplicates, or its own. *)
Lemma process_image_covers (st : State) (f : image_file)
    (img_hash : fingerprint) :
  0 <= threshold ->
  try_hash max_image_size f = inr img_hash ->
  exists kept_hash,
    In kept_hash
       (unique_hashes (fst (process_image threshold max_image_size st f)))
    /\ hamming_distance img_hash kept_hash <= threshold.
Proof.
  intros Hthreshold Ehash.
  rewrite (process_image_classifies _ _ _ _ _ Ehash).
  destruct (first_match_or_none threshold img_hash (unique_hashes st))
    as [(hb & member & ha & Hsplit & Hfar & Hnear)|Hfar].
  - rewrite (classify_duplicate threshold st (img_path f) img_hash
               (S (length hb))).
    + exists member. split; [|exact Hnear]. cbn [fst unique_hashes].
      rewrite Hsplit. apply in_or_app. right. now left.
    + rewrite Hsplit. now apply scan_first_match.
  - rewrite (classify_unique _ _ _ _ _ (scan_no_match _ _ _ Hfar)).
    exists img_hash. split.
    + cbn [fst unique_hashes]. apply in_or_app. right. now left.
    + now rewrite hamming_refl.
Qed.

End Cover.

(** X5: with a threshold that is not negative (it is 5), every file that
    could be hashed has, at the end of the loop, a kept hash within the
    threshold of its own: no image is dropped without a near one being
    kept. *)
Theorem kept_hashes_cover_input `{Float64} `{Pillow}
    (threshold max_image_size : Z) (image_files : list image_file)
    (f : image_file) (img_hash : fingerprint) :
  0 <= threshold ->
  In f image_files ->
  try_hash max_image_size f = inr img_hash ->
  exists kept_hash,
    In kept_hash
       (unique_hashes
          (snd (run threshold max_image_size initial image_files)))
    /\ hamming_distance img_hash kept_hash <= threshold.
Proof.
  intros Hthreshold Hin Ehash.
  destruct (in_split f image_files Hin) as (before & after & ->).
  rewrite run_app, run_cons. cbn [snd].
  set (st1 := snd (run threshold max_image_size initial before)).
  destruct (process_image_covers threshold max_image_size st1 f img_hash
              Hthreshold Ehash) as (kept_hash & Hkept & Hnear).
  exists kept_hash. split; [|exact Hnear].
  destruct (run_unique_lists_grow threshold max_image_size
              (fst (process_image threshold max_image_size st1 f)) after)
    as (hs & ps & Eh & _).
  rewrite Eh. apply in_or_app. now left.
Qed.

Lemma kept_hashes_cover_input_witness :
  exists kept_hash,
    In kept_hash
       (unique_hashes
          (snd (@run grid_float raster 5 MAX_IMAGE_SIZE initial
                  [chain_a; chain_b; chain_c])))
    /\ hamming_distance (repeat 0 4 ++ repeat 1 60) kept_hash <= 5.
Proof.
  apply (@kept_hashes_cover_input grid_float raster 5 MAX_IMAGE_SIZE
           [chain_a; chain_b; chain_c] chain_b).
  - lia.
  - right; left. reflexivity.
  - vm_compute. reflexivity.
Defined.

(** * Copies and strangers *)

(** X6: when a file has been found unique, a later file with the same hash
    is found duplicate of that very file (for a threshold that is not
    negative): a second copy of a kept image is always caught and charged
    to the first. *)
Theorem copy_of_kept_is_its_duplicate `{Float64} `{Pillow}
    (threshold max_image_size : Z)
    (before between after : list image_file) (x y : image_file)
    (img_hash : fingerprint) :
  0 <= threshold ->
  try_hash max_image_size x = inr img_hash ->
  try_hash max_image_size y = inr img_hash ->
  let vs :=
    fst (run threshold max_image_size initial
           (before ++ x :: between ++ y :: after)) in
  nth_error vs (length before) = Some Unique ->
  nth_error vs (length before + 1 + length between)
  = Some (Duplicate_of (img_path x)).
Proof.
  intros Hthreshold Ex Ey vs Hunique. subst vs.
  rewrite verdict_at in Hunique. injection Hunique as Hunique.
  set (st1 := snd (run threshold max_image_size initial before)) in *.
  pose proof (run_aligned threshold max_image_size before) as Haligned.
  fold st1 in Haligned. unfold aligned in Haligned.
  rewrite (process_image_classifies _ _ _ _ _ Ex) in Hunique.
  assert (Hfar : Forall (far threshold img_hash) (unique_hashes st1)).
  { apply scan_false_far. unfold classify in Hunique.
    destruct (scan threshold img_hash (unique_hashes st1)) as [[|] k];
      [discriminate | reflexivity]. }
  replace (before ++ x :: between ++ y :: after)
    with ((before ++ x :: between) ++ y :: after)
    by (now rewrite <- app_assoc).
  replace (length before + 1 + length between)%nat
    with (length (before ++ x :: between))
    by (rewrite length_app; cbn [length]; lia).
  rewrite verdict_at. f_equal.
  rewrite run_app, run_cons. cbn [snd].
  rewrite (process_image_classifies _ _ _ _ _ Ex).
  rewrite (classify_unique _ _ _ _ _ (scan_no_match _ _ _ Hfar)).
  cbn [fst]. fold st1.
  set (st2 := {| unique_hashes := unique_hashes st1 ++ [img_hash];
                 unique_filepaths := unique_filepaths st1 ++ [img_path x];
                 duplicates := duplicates st1 |}).
  destruct (run_unique_lists_grow threshold max_image_size st2 between)
    as (hs & ps & Eh & Ep).
  cbn [st2 unique_hashes unique_filepaths] in Eh, Ep.
  rewrite <- app_assoc in Eh, Ep. cbn [app] in Eh, Ep.
  rewrite (process_image_classifies _ _ _ _ _ Ey).
  rewrite (classify_duplicate threshold _ (img_path y) img_hash
             (S (length (unique_hashes st1)))).
  - cbn [snd]. rewrite Ep. f_equal.
    replace (S (length (unique_hashes st1)) - 1)%nat
      with (length (unique_filepaths st1)) by lia.
    apply nth_middle.
  - rewrite Eh. apply scan_first_match; [exact Hfar|].
    now rewrite hamming_refl.
Qed.

Lemma copy_of_kept_is_its_duplicate_witness :
  nth_error
    (fst (@run grid_float raster 5 MAX_IMAGE_SIZE initial
            ([chain_a] ++ chain_c :: [chain_b] ++ chain_c :: [])))
    (length [chain_a] + 1 + length [chain_b])
  = Some (Duplicate_of (img_path chain_c)).
Proof.
  apply (@copy_of_kept_is_its_duplicate grid_float raster 5 MAX_IMAGE_SIZE
           [chain_a] [chain_b] [] chain_c chain_c
           (repeat 0 8 ++ repeat 1 56)).
  - lia.
  - vm_compute. reflexivity.
  - vm_compute. reflexivity.
  - vm_compute. reflexivity.
Defined.

Section Strangers.
Context `{Float64} `{Pillow}.
Variables threshold max_image_size : Z.

Lemma run_all_far (files : list image_file) (hashes : list fingerprint)
    (st : State) :
  Forall2 (fun f h => try_hash max_image_size f = inr h) files hashes ->
  all_far threshold (unique_hashes st) hashes ->
  run threshold max_image_size st files
  = (repeat Unique (length files),
     {| unique_hashes := unique_hashes st ++ hashes;
        unique_filepaths := unique_filepaths st ++ map img_path files;
        duplicates := duplicates st |}).
Proof.
  intro Hhashes. revert st.
  induction Hhashes as [|f h files hashes Ef _ IH]; intros st Hfar.
  - cbn. rewrite !app_nil_r. now destruct st.
  - destruct Hfar as [Hh Hrest].
    rewrite run_cons, (process_image_classifies _ _ _ _ _ Ef).
    rewrite (classify_unique _ _ _ _ _ (scan_no_match _ _ _ Hh)).
    cbn [fst snd]. rewrite IH by exact Hrest.
    cbn [fst snd unique_hashes unique_filepaths duplicates length repeat map].
    now rewrite <- !app_assoc.
Qed.

Lemma pairwise_far_all_far (seen hashes : list fingerprint) :
  pairwise_far threshold (seen ++ hashes) ->
  all_far threshold seen hashes.
Proof.
  revert seen; induction hashes as [|h rest IH]; intros seen Hpair.
  - exact I.
  - split.
    + apply Forall_forall. intros s Hs.
      destruct (In_nth_error _ _ Hs) as [i Hi].
      assert (Hlt : (i < length seen)%nat)
        by (apply nth_error_Some; congruence).
      apply (Hpair (length seen) i h s); [lia | |].
      * rewrite nth_error_app2, Nat.sub_diag by lia. reflexivity.
      * now rewrite nth_error_app1.
    + apply IH. now rewrite <- app_assoc.
Qed.

End Strangers.

(** X7: when every file can be hashed and any two of the hashes are further
    apart than the threshold, every file is found unique and kept, in input
    order, and nothing is reported duplicate. *)
Theorem strangers_are_all_kept `{Float64} `{Pillow}
    (threshold max_image_size : Z) (image_files : list image_file)
    (hashes : list fingerprint) :
  Forall2 (fun f h => try_hash max_image_size f = inr h) image_files hashes ->
  pairwise_far threshold hashes ->
  run threshold max_image_size initial image_files
  = (repeat Unique (length image_files),
     {| unique_hashes := hashes;
        unique_filepaths := map img_path image_files;
        duplicates := [] |}).
Proof.
  intros Hhashes Hpair.
  apply (run_all_far threshold max_image_size image_files hashes initial
           Hhashes).
  now apply pairwise_far_all_far.
Qed.

Lemma strangers_are_all_kept_witness :
  @run grid_float raster 5 MAX_IMAGE_SIZE initial [chain_a; chain_c]
  = (repeat Unique (length [chain_a; chain_c]),
     {| unique_hashes := [repeat 1 64; repeat 0 8 ++ repeat 1 56];
        unique_filepaths := map img_path [chain_a; chain_c];
        duplicates := [] |}).
Proof.
  apply (@strangers_are_all_kept grid_float raster 5 MAX_IMAGE_SIZE
           [chain_a; chain_c] [repeat 1 64; repeat 0 8 ++ repeat 1 56]).
  - repeat constructor; vm_compute; reflexivity.
  - intros i j a b Hij Hi Hj.
    destruct i as [|[|i]]; destruct j as [|[|j]];
      try (destruct i; discriminate); try (destruct j; discriminate);
      try congruence;
      injection Hi as <-; injection Hj as <-; vm_compute; reflexivity.
Defined.

(** X8: the first file that can be hashed is found unique, whatever comes
    before it fails, and heads the unique lists: a run in which some image is
    readable never ends with nothing kept. *)
Theorem first_hashed_is_kept `{Float64} `{Pillow}
    (threshold max_image_size : Z)
    (failing rest : list image_file) (f : image_file)
    (img_hash : fingerprint) :
  Forall (fails max_image_size) failing ->
  try_hash max_image_size f = inr img_hash ->
  let vs :=
    fst (run threshold max_image_size initial (failing ++ f :: rest)) in
  let final :=
    snd (run threshold max_image_size initial (failing ++ f :: rest)) in
  nth_error vs (length failing) = Some Unique
  /\ exists more_hashes more_paths,
      unique_hashes final = img_hash :: more_hashes
      /\ unique_filepaths final = img_path f :: more_paths.
Proof.
  intros Hfailing Ehash vs final.
  assert (Hstill : snd (run threshold max_image_size initial failing)
                   = initial).
  { generalize initial. induction Hfailing as [|g failing Hg _ IH];
      intro st; [reflexivity|].
    rewrite run_cons. cbn [snd].
    destruct (try_hash_fails max_image_size g Hg) as [reason Eg].
    rewrite (process_image_skips _ _ _ _ _ Eg). apply IH. }
  split.
  - subst vs. rewrite verdict_at, Hstill.
    rewrite (process_image_classifies _ _ _ _ _ Ehash). reflexivity.
  - subst final. rewrite run_app, run_cons, Hstill. cbn [snd].
    rewrite (process_image_classifies _ _ _ _ _ Ehash).
    destruct (run_unique_lists_grow threshold max_image_size
                (fst (classify threshold initial (img_path f) img_hash))
                rest) as (hs & ps & Eh & Ep).
    exists hs, ps. now rewrite Eh, Ep.
Qed.

Lemma first_hashed_is_kept_witness :
  let vs :=
    fst (@run grid_float raster 5 MAX_IMAGE_SIZE initial
           ([corrupt_file "broken.png" 120] ++ chain_b :: [chain_a])) in
  let final :=
    snd (@run grid_float raster 5 MAX_IMAGE_SIZE initial
           ([corrupt_file "broken.png" 120] ++ chain_b :: [chain_a])) in
  nth_error vs (length [corrupt_file "broken.png" 120]) = Some Unique
  /\ exists more_hashes more_paths,
      unique_hashes final = (repeat 0 4 ++ repeat 1 60) :: more_hashes
      /\ unique_filepaths final = img_path chain_b :: more_paths.
Proof.
  apply (@first_hashed_is_kept grid_float raster 5 MAX_IMAGE_SIZE
           [corrupt_file "broken.png" 120] [chain_a] chain_b
           (repeat 0 4 ++ repeat 1 60)).
  - constructor; [|constructor].
    right; right; left. exists OSError. reflexivity.
  - vm_compute. reflexivity.
Defined.

(** * More about the hash *)

Lemma sum_le_bound (l : list Z) (p : Z) :
  (forall q, In q l -> q <= p) -> py_sum l <= p * len l.
Proof.
  induction l as [|x l IH]; intro Hle; unfold len in *.
  - cbn. lia.
  - rewrite py_sum_cons. cbn [length].
    assert (x <= p) by (apply Hle; now left).
    assert (py_sum l <= p * Z.of_nat (length l))
      by (apply IH; intros q Hq; apply Hle; now right).
    lia.
Qed.

Lemma sum_ge_bound (l : list Z) (p : Z) :
  (forall q, In q l -> p <= q) -> p * len l <= py_sum l.
Proof.
  induction l as [|x l IH]; intro Hle; unfold len in *.
  - cbn. lia.
  - rewrite py_sum_cons. cbn [length].
    assert (p <= x) by (apply Hle; now left).
    assert (p * Z.of_nat (length l) <= py_sum l)
      by (apply IH; intros q Hq; apply Hle; now right).
    lia.
Qed.

Lemma sum_gt_bound (l : list Z) (p q : Z) :
  (forall r, In r l -> p <= r) -> In q l -> p < q -> p * len l < py_sum l.
Proof.
  induction l as [|x l IH]; intros Hle Hin Hlt; [contradiction|].
  rewrite py_sum_cons. unfold len in *. cbn [length].
  assert (p <= x) by (apply Hle; now left).
  assert (Htail : forall r, In r l -> p <= r)
    by (intros r Hr; apply Hle; now right).
  destruct Hin as [->|Hin].
  - pose proof (sum_ge_bound l p Htail). unfold len in *. lia.
  - pose proof (IH Htail Hin Hlt). lia.
Qed.

Lemma greatest_element (l : list Z) :
  l <> [] -> exists p, In p l /\ forall q, In q l -> q <= p.
Proof.
  induction l as [|x l IH]; [congruence|]. intros _.
  destruct l as [|y l].
  - exists x. split; [now left|]. intros q [<-|[]]. lia.
  - destruct IH as (p & Hp & Hmax); [discriminate|].
    destruct (Z_le_gt_dec x p).
    + exists p. split; [now right|].
      intros q [<-|Hq]; [assumption | now apply Hmax].
    + exists x. split; [now left|].
      intros q [<-|Hq]; [lia|]. specialize (Hmax q Hq). lia.
Qed.

Lemma least_element (l : list Z) :
  l <> [] -> exists p, In p l /\ forall q, In q l -> p <= q.
Proof.
  induction l as [|x l IH]; [congruence|]. intros _.
  destruct l as [|y l].
  - exists x. split; [now left|]. intros q [<-|[]]. lia.
  - destruct IH as (p & Hp & Hmin); [discriminate|].
    destruct (Z_le_gt_dec p x).
    + exists p. split; [now right|].
      intros q [<-|Hq]; [assumption | now apply Hmin].
    + exists x. split; [now left|].
      intros q [<-|Hq]; [lia|]. specialize (Hmin q Hq). lia.
Qed.

Lemma exact_mean_le (pixels : list Z) (p : Z) :
  pixels <> [] ->
  (exact_mean pixels <= inject_Z p)%Q <-> py_sum pixels <= p * len pixels.
Proof.
  intro Hne. unfold exact_mean.
  assert (0 < len pixels)
    by (destruct pixels; [congruence | apply len_pos]).
  rewrite Qdiv_as_fraction by assumption. now apply fraction_le_int.
Qed.

Section Bits.
Context `{Float64}.

Lemma hash_bits_nonempty (pixels : list Z) :
  pixels <> [] ->
  hash_bits pixels
  = Ok (map (fun pixel =>
               if Qle_bool (fl (exact_mean pixels)) (inject_Z pixel)
               then 1 else 0)
            pixels).
Proof.
  intro Hne. destruct pixels as [|x xs]; [congruence|].
  apply hash_bits_cons.
Qed.

Lemma hash_bits_returns (pixels : list Z) (bits : fingerprint) :
  hash_bits pixels = Ok bits -> pixels <> [].
Proof. intros Hbits E. rewrite E, hash_bits_nil in Hbits. discriminate. Qed.

(** The bit of a pixel that no pixel exceeds is 1. *)
Lemma greatest_pixel_bit (pixels : list Z) (p : Z) :
  pixels <> [] ->
  0 <= p <= 255 ->
  (forall q, In q pixels -> q <= p) ->
  Qle_bool (fl (exact_mean pixels)) (inject_Z p) = true.
Proof.
  intros Hne Hp Hmax. apply Qle_bool_iff.
  rewrite <- (fl_int p Hp). apply fl_monotone.
  apply exact_mean_le; [exact Hne | now apply sum_le_bound].
Qed.

(** The bit of a least pixel is 0 unless all pixels are equal. *)
Lemma least_pixel_bit (pixels : list Z) (p q : Z) :
  len pixels <= 2 ^ 44 ->
  0 <= p <= 255 ->
  (forall r, In r pixels -> p <= r) ->
  In q pixels -> p < q ->
  Qle_bool (fl (exact_mean pixels)) (inject_Z p) = false.
Proof.
  intros Hlen Hp Hmin Hq Hlt.
  assert (Hne : pixels <> []) by (intro E; now rewrite E in Hq).
  apply Bool.not_true_is_false. rewrite Qle_bool_iff. unfold exact_mean.
  rewrite fl_keeps_order.
  - fold (exact_mean pixels). rewrite (exact_mean_le pixels p Hne).
    pose proof (sum_gt_bound pixels p q Hmin Hq Hlt). lia.
  - destruct pixels; [congruence|]. pose proof (len_pos z pixels). lia.
  - exact Hp.
Qed.

End Bits.

(** X9: a hash [average_hash] returns consists of zeros and ones and is
    never all zeros: the bit of a brightest pixel is 1. *)
Theorem average_hash_has_a_one `{Float64} `{Pillow}
    (image : Image) (hash_size : nat) (bits : fingerprint) :
  average_hash image hash_size = Ok bits ->
  Forall (fun b => b = 0 \/ b = 1) bits /\ In 1 bits.
Proof.
  unfold average_hash. intro Hhash.
  destruct (gray_pixels image hash_size) as [pixels|e] eqn:Hpixels;
    [|discriminate].
  pose proof (gray_pixels_range image hash_size pixels) as Hrange.
  pose proof (hash_bits_returns pixels bits Hhash) as Hne.
  rewrite (hash_bits_nonempty pixels Hne) in Hhash.
  assert (Hbits : bits
                  = map (fun pixel =>
                           if Qle_bool (fl (exact_mean pixels))
                                       (inject_Z pixel)
                           then 1 else 0) pixels) by congruence.
  rewrite Hbits. split.
  - apply Forall_forall. intros b Hb. apply in_map_iff in Hb.
    destruct Hb as (p & <- & _).
    destruct (Qle_bool _ _); [now right | now left].
  - destruct (greatest_element pixels Hne) as (p & Hp & Hmax).
    apply in_map_iff. exists p. split; [|exact Hp].
    rewrite greatest_pixel_bit;
      [reflexivity | exact Hne | now apply Hrange | exact Hmax].
Qed.

Lemma average_hash_has_a_one_witness :
  Forall (fun b => b = 0 \/ b = 1) [0; 1; 0; 0] /\ In 1 [0; 1; 0; 0].
Proof.
  apply (@average_hash_has_a_one grid_float raster [10; 200; 30; 40] 2).
  vm_compute. reflexivity.
Defined.

(** X10: when the resample has two different intensities the hash has a 0
    bit as well as a 1 bit (the bit of a darkest pixel is 0): only flat
    resamples hash to ones only. *)
Theorem average_hash_of_uneven_image `{Float64} `{Pillow}
    (image : Image) (hash_size : nat) (pixels : list Z) (p q : Z) :
  Z.of_nat (hash_size * hash_size) <= 2 ^ 44 ->
  gray_pixels image hash_size = Ok pixels ->
  In p pixels -> In q pixels -> p <> q ->
  exists bits,
    average_hash image hash_size = Ok bits /\ In 0 bits /\ In 1 bits.
Proof.
  intros Hbound Hpixels Hp Hq Hpq.
  pose proof (gray_pixels_range image hash_size pixels) as Hrange.
  pose proof (gray_pixels_length image hash_size pixels Hpixels) as Hlen.
  assert (Hne : pixels <> []) by (intro E; now rewrite E in Hp).
  unfold average_hash. rewrite Hpixels, (hash_bits_nonempty pixels Hne).
  eexists. split; [reflexivity|].
  destruct (greatest_element pixels Hne) as (hi & Hhi & Hmax).
  destruct (least_element pixels Hne) as (lo & Hlo & Hmin).
  split.
  - assert (Hother : exists r, In r pixels /\ lo < r).
    { destruct (Z.eq_dec p lo) as [->|Hne_p].
      - exists q. split; [exact Hq|]. specialize (Hmin q Hq). lia.
      - exists p. split; [exact Hp|]. specialize (Hmin p Hp). lia. }
    destruct Hother as (r & Hr & Hlt).
    apply in_map_iff. exists lo. split; [|exact Hlo].
    rewrite (least_pixel_bit pixels lo r); try assumption.
    + reflexivity.
    + unfold len. rewrite Hlen. exact Hbound.
    + now apply Hrange.
  - apply in_map_iff. exists hi. split; [|exact Hhi].
    rewrite greatest_pixel_bit;
      [reflexivity | exact Hne | now apply Hrange | exact Hmax].
Qed.

Lemma average_hash_of_uneven_image_witness :
  exists bits,
    @average_hash grid_float raster [10; 200; 30; 40] 2 = Ok bits
    /\ In 0 bits /\ In 1 bits.
Proof.
  apply (@average_hash_of_uneven_image grid_float raster
           [10; 200; 30; 40] 2 [10; 200; 30; 40] 10 200).
  - vm_compute. discriminate.
  - reflexivity.
  - now left.
  - right; now left.
  - discriminate.
Defined.

Lemma py_sum_affine (a c : Z) (l : list Z) :
  py_sum (map (fun p => a * p + c) l) = a * py_sum l + c * len l.
Proof.
  induction l as [|x l IH]; unfold len in *.
  - cbn. lia.
  - cbn [map length]. rewrite !py_sum_cons, IH. lia.
Qed.

(** X11: brightening and stretching do not change the hash: when the
    resample of a second image is that of a first under [p -> a * p + c]
    with [a > 0], both images get the same hash (or the same failure). *)
Theorem average_hash_ignores_brightness `{Float64} `{Pillow}
    (image1 image2 : Image) (hash_size : nat) (pixels : list Z) (a c : Z) :
  Z.of_nat (hash_size * hash_size) <= 2 ^ 44 ->
  0 < a ->
  gray_pixels image1 hash_size = Ok pixels ->
  gray_pixels image2 hash_size = Ok (map (fun p => a * p + c) pixels) ->
  average_hash image2 hash_size = average_hash image1 hash_size.
Proof.
  intros Hbound Ha H1 H2.
  pose proof (gray_pixels_range image1 hash_size pixels) as Hrange1.
  pose proof (gray_pixels_range image2 hash_size
                (map (fun p => a * p + c) pixels)) as Hrange2.
  pose proof (gray_pixels_length image1 hash_size pixels H1) as Hlen.
  unfold average_hash. rewrite H1, H2.
  destruct pixels as [|x xs] eqn:Epx; [reflexivity|]. rewrite <- Epx in *.
  assert (Hne : pixels <> []) by (rewrite Epx; discriminate).
  assert (Hsize : len pixels <= 2 ^ 44)
    by (unfold len; rewrite Hlen; exact Hbound).
  rewrite (hash_bits_exact pixels Hne Hsize (fun p => Hrange1 p H1)).
  rewrite hash_bits_exact.
  - f_equal. rewrite map_map. apply map_ext_in. intros p Hp.
    replace (Qle_bool (exact_mean (map (fun p0 => a * p0 + c) pixels))
                      (inject_Z (a * p + c)))
      with (Qle_bool (exact_mean pixels) (inject_Z p)); [reflexivity|].
    apply Bool.eq_iff_eq_true. rewrite !Qle_bool_iff.
    rewrite (exact_mean_le pixels p Hne).
    rewrite exact_mean_le
      by (rewrite Epx; discriminate).
    rewrite py_sum_affine. unfold len. rewrite length_map.
    assert (0 < Z.of_nat (length pixels))
      by (rewrite Epx; cbn [length]; lia).
    nia.
  - rewrite Epx. discriminate.
  - unfold len in *. now rewrite length_map.
  - intros p Hp. exact (Hrange2 p H2 Hp).
Qed.

Lemma average_hash_ignores_brightness_witness :
  @average_hash grid_float raster [25; 205; 45; 55] 2
  = @average_hash grid_float raster [10; 100; 20; 25] 2.
Proof.
  apply (@average_hash_ignores_brightness grid_float raster
           [10; 100; 20; 25] [25; 205; 45; 55] 2 [10; 100; 20; 25] 2 5).
  - vm_compute. discriminate.
  - lia.
  - reflexivity.
  - reflexivity.
Defined.

(** X12: the distance obeys the triangle inequality whenever the hash in
    the middle is at least as long as the shorter of the two others, in
    particular between hashes of one length. *)
Theorem hamming_distance_triangle (a b c : fingerprint) :
  (Nat.min (length a) (length c) <= length b)%nat ->
  hamming_distance a c <= hamming_distance a b + hamming_distance b c.
Proof.
  revert b c; induction a as [|x a IH]; intros b c Hlen.
  - rewrite !hamming_nil_l. pose proof (hamming_nonneg b c). lia.
  - destruct c as [|z c].
    + rewrite !hamming_nil_r. pose proof (hamming_nonneg (x :: a) b). lia.
    + destruct b as [|y b]; [cbn in Hlen; lia|].
      rewrite !hamming_cons.
      assert (Htail : hamming_distance a c
                      <= hamming_distance a b + hamming_distance b c)
        by (apply IH; cbn [length] in Hlen; lia).
      destruct (Z.eqb_spec x z), (Z.eqb_spec x y), (Z.eqb_spec y z);
        cbn [Z.b2z negb]; try lia; congruence.
Qed.

Lemma hamming_distance_triangle_witness :
  hamming_distance [1; 1; 0; 0] [0; 0; 0; 1]
  <= hamming_distance [1; 1; 0; 0] [1; 0; 0; 0]
     + hamming_distance [1; 0; 0; 0] [0; 0; 0; 1].
Proof.
  apply (hamming_distance_triangle [1; 1; 0; 0] [1; 0; 0; 0] [0; 0; 0; 1]).
  cbn. lia.
Defined.

(** * Checking the archive *)

(** The checks let an archive pass exactly when its path exists, its
    size on disk is at most [max_zip_size], it opens, [testzip] finds no bad
    member, and the sizes of its members add up to at most ten times
    [max_zip_size]; both limits are inclusive. *)
Lemma validate_passes_iff (max_zip_size : Z) (a : input_zip) :
  validate max_zip_size a = Passed
  <-> path_exists a = true
      /\ exists (zip_size : Z) (z : zip_ref),
          zip_getsize a = Got zip_size
          /\ zip_size <= max_zip_size
          /\ ZipFile a = Got z
          /\ testzip z = Got None
          /\ py_sum (file_sizes z) <= 10 * max_zip_size.
Proof.
  unfold validate, check_members. split.
  - destruct (path_exists a); cbn [negb]; [|discriminate].
    destruct (zip_getsize a) as [zip_size|e]; [|discriminate].
    destruct (Z.gtb_spec zip_size max_zip_size) as [|Hsize]; [discriminate|].
    destruct (ZipFile a) as [z|[|e]]; cbn [except_BadZipFile];
      try discriminate.
    destruct (testzip z) as [[bad|]|[|e]] eqn:Htest;
      cbn [except_BadZipFile]; try discriminate.
    destruct (Z.gtb_spec (py_sum (file_sizes z)) (max_zip_size * 10))
      as [|Htotal]; cbn [except_BadZipFile]; [discriminate|].
    intros _. split; [reflexivity|]. exists zip_size, z.
    split; [reflexivity|]. split; [lia|]. split; [reflexivity|].
    split; [exact Htest | lia].
  - intros (Hexists & zip_size & z & Hsize & Hle & Hopen & Htest & Htotal).
    rewrite Hexists, Hsize, Hopen, Htest. cbn [negb].
    destruct (Z.gtb_spec zip_size max_zip_size); [lia|].
    destruct (Z.gtb_spec (py_sum (file_sizes z)) (max_zip_size * 10));
      [lia | reflexivity].
Qed.

(** X13: the zip bomb check compares the members' total size with
    [max_zip_size], never with the archive's own size: an archive that
    passes still passes when stored in any smaller number of bytes, so no
    compression ratio is refused. *)
Theorem validate_ignores_ratio (max_zip_size zip_size : Z) (a : input_zip) :
  validate max_zip_size a = Passed ->
  zip_size <= max_zip_size ->
  validate max_zip_size (stored_in zip_size a) = Passed.
Proof.
  unfold validate, stored_in. cbn [path_exists zip_getsize ZipFile].
  intros Hpassed Hle.
  destruct (path_exists a); cbn [negb] in *; [|discriminate].
  destruct (zip_getsize a) as [old_size|e]; [|discriminate].
  destruct (Z.gtb_spec old_size max_zip_size); [discriminate|].
  destruct (Z.gtb_spec zip_size max_zip_size); [lia | exact Hpassed].
Qed.

(** * Choosing the image files *)

Lemma split_last_dot_none (p : string) :
  has_dot p = false -> split_last_dot p = None.
Proof.
  induction p as [|c rest IH]; [reflexivity|]. cbn [has_dot split_last_dot].
  intro Hdot. apply Bool.orb_false_iff in Hdot. destruct Hdot as [Hc Hrest].
  now rewrite (IH Hrest), Hc.
Qed.

Lemma split_last_dot_at (stem suffix : string) :
  has_dot suffix = false ->
  split_last_dot (stem ++ String "." suffix)%string
  = Some (stem, String "." suffix).
Proof.
  intro Hdot. induction stem as [|c stem IH].
  - cbn. now rewrite (split_last_dot_none suffix Hdot).
  - cbn [append split_last_dot]. now rewrite IH.
Qed.

Lemma split_last_dot_some (p root ext : string) :
  split_last_dot p = Some (root, ext) ->
  exists suffix,
    ext = String "." suffix
    /\ has_dot suffix = false
    /\ p = (root ++ ext)%string.
Proof.
  revert root ext; induction p as [|c rest IH]; intros root ext;
    [discriminate|].
  cbn [split_last_dot].
  destruct (split_last_dot rest) as [[root' ext']|] eqn:Hrest.
  - intro E; injection E as <- <-.
    destruct (IH root' ext' eq_refl) as (suffix & -> & Hdot & ->).
    exists suffix. repeat split. exact Hdot.
  - destruct (is_dot c) eqn:Hc; [|discriminate].
    intro E; injection E as <- <-.
    apply Ascii.eqb_eq in Hc. subst c. exists rest. repeat split.
    clear IH. induction rest as [|d rest IH]; [reflexivity|].
    cbn [split_last_dot] in Hrest. cbn [has_dot].
    destruct (split_last_dot rest) as [[r e]|]; [discriminate|].
    destruct (is_dot d); [discriminate|]. now apply IH.
Qed.

Lemma lower_dot (suffix : string) :
  lower (String "." suffix) = String "." (lower suffix).
Proof. reflexivity. Qed.

Lemma in_valid_extensions (ext : string) :
  existsb (String.eqb ext) VALID_EXTENSIONS = true
  <-> In ext VALID_EXTENSIONS.
Proof.
  rewrite existsb_exists. split.
  - intros (x & Hx & Heq). apply String.eqb_eq in Heq. now subst.
  - intro Hin. exists ext. split; [exact Hin | apply String.eqb_refl].
Qed.

(** X14: a file is taken as an image exactly when its name is
    [stem.suffix] with a stem that is not made of dots only, a suffix
    without dot, and the suffix, in any mix of upper and lower case, is one
    of png, jpg, jpeg, bmp, gif, tiff.  So only what follows the last dot
    counts, and a name such as [.png] is not taken. *)
Theorem has_valid_extension_iff (file : string) :
  has_valid_extension file = true
  <-> exists stem suffix : string,
      file = (stem ++ String "." suffix)%string
      /\ only_dots stem = false
      /\ has_dot suffix = false
      /\ In (String "." (lower suffix)) VALID_EXTENSIONS.
Proof.
  unfold has_valid_extension, splitext. split.
  - destruct (split_last_dot file) as [[root ext]|] eqn:Hsplit;
      [|cbn; discriminate].
    destruct (only_dots root) eqn:Hroot; [cbn; discriminate|].
    cbn [snd]. intro Hvalid. apply in_valid_extensions in Hvalid.
    destruct (split_last_dot_some file root ext Hsplit)
      as (suffix & -> & Hdot & ->).
    exists root, suffix. rewrite lower_dot in Hvalid. now repeat split.
  - intros (stem & suffix & -> & Hstem & Hdot & Hvalid).
    rewrite (split_last_dot_at stem suffix Hdot), Hstem. cbn [snd].
    rewrite lower_dot. now apply in_valid_extensions.
Qed.

(** Names the gathering takes and names it leaves. *)
Example has_valid_extension_examples :
  has_valid_extension "photo.JPG" = true
  /\ has_valid_extension "archive.tar.jpeg" = true
  /\ has_valid_extension ".png" = false
  /\ has_valid_extension "scan.png.txt" = false
  /\ has_valid_extension "README" = false.
Proof. repeat split. Qed.

Lemma validate_ignores_ratio_witness :
  validate MAX_ZIP_SIZE (stored_in 1 dense_archive) = Passed.
Proof.
  apply (validate_ignores_ratio MAX_ZIP_SIZE 1 dense_archive).
  - vm_compute. reflexivity.
  - vm_compute. discriminate.
Defined.

(** * How the script ends *)

(** X15: the temporary directories are left behind exactly when the script
    stops through [sys.exit] inside the [try]: on an argparse exit or when
    the checks reject the archive (status 1).  After any exception of a later
    step, and after a complete run, they are removed. *)
Theorem temp_dirs_left_iff (args : parse_args) (a : input_zip) (s : steps) :
  temp_dirs_left (script args a s) = true
  <-> (exists code, args = ArgparseExit code)
      \/ (exists max_zip_size max_image_size why,
             args = Parsed max_zip_size max_image_size
             /\ validate max_zip_size a = Rejected why
             /\ exit_status (script args a s) = 1).
Proof.
  unfold script, try_body. split.
  - destruct args as [max_zip_size max_image_size|code];
      [|intros _; left; now exists code].
    destruct (validate max_zip_size a) as [|why|e] eqn:Hvalidate.
    + destruct (makedirs_output s), (extractall s), (copy_unique s),
        (write_archive s); discriminate.
    + intros _. right. now exists max_zip_size, max_image_size, why.
    + discriminate.
  - intros [[code ->]|(max_zip_size & max_image_size & why & -> & -> & _)];
      reflexivity.
Qed.

(** * The hashes a run compares *)

Lemma average_hash_length `{Float64} `{Pillow}
    (image : Image) (hash_size : nat) (bits : fingerprint) :
  average_hash image hash_size = Ok bits ->
  length bits = (hash_size * hash_size)%nat.
Proof.
  unfold average_hash. intro Hhash.
  destruct (gray_pixels image hash_size) as [pixels|e] eqn:Hpixels;
    [|discriminate].
  pose proof (hash_bits_returns pixels bits Hhash) as Hne.
  rewrite (hash_bits_nonempty pixels Hne) in Hhash.
  assert (Hbits : bits
                  = map (fun pixel =>
                           if Qle_bool (fl (exact_mean pixels))
                                       (inject_Z pixel)
                           then 1 else 0) pixels) by congruence.
  rewrite Hbits, length_map.
  exact (gray_pixels_length image hash_size pixels Hpixels).
Qed.

Lemma try_hash_length `{Float64} `{Pillow}
    (max_image_size : Z) (f : image_file) (img_hash : fingerprint) :
  try_hash max_image_size f = inr img_hash ->
  length img_hash = (HASH_SIZE * HASH_SIZE)%nat.
Proof.
  unfold try_hash.
  destruct (getsize f) as [size|e]; [|discriminate].
  destruct (size >? max_image_size); [discriminate|].
  destruct (opened f) as [img|e]; [|discriminate].
  destruct (average_hash img HASH_SIZE) as [h|e] eqn:Hhash; [|discriminate].
  intro E; injection E as <-. now apply average_hash_length in Hhash.
Qed.

(** X16: every hash the loop keeps has exactly [HASH_SIZE * HASH_SIZE] = 64
    bits, and so has every hash it compares with them: within a run
    [hamming_distance] is only ever applied to hashes of equal length. *)
Theorem run_compares_equal_lengths `{Float64} `{Pillow}
    (threshold max_image_size : Z) (done : list image_file)
    (f : image_file) :
  Forall (fun uhash => length uhash = 64%nat)
         (unique_hashes (snd (run threshold max_image_size initial done)))
  /\ forall img_hash,
      try_hash max_image_size f = inr img_hash ->
      Forall (fun uhash => length img_hash = length uhash)
             (unique_hashes
                (snd (run threshold max_image_size initial done))).
Proof.
  assert (Hkept : forall files st,
             Forall (fun uhash => length uhash = 64%nat) (unique_hashes st) ->
             Forall (fun uhash => length uhash = 64%nat)
                    (unique_hashes
                       (snd (run threshold max_image_size st files)))).
  { induction files as [|g files IH]; intros st Hst; [exact Hst|].
    rewrite run_cons. cbn [snd]. apply IH.
    destruct (process_image_cases threshold max_image_size st g)
      as [[reason E]|[[representative E]|[img_hash [Ehash E]]]];
      rewrite E; cbn [fst unique_hashes]; try exact Hst.
    apply Forall_app. split; [exact Hst|].
    constructor; [|constructor].
    exact (try_hash_length max_image_size g img_hash Ehash). }
  specialize (Hkept done initial (Forall_nil _)).
  split; [exact Hkept|].
  intros img_hash Ehash. apply try_hash_length in Ehash.
  revert Hkept. apply Forall_impl. intros uhash Hlen.
  rewrite Ehash, Hlen. reflexivity.
Qed.
